(** * Walter: the outage-announcement pipeline

    A shallow embedding of [services/water_stops_service.py] and
    [services/electricity_stops_service.py]: the positional field extractor,
    the two TTL-cached fetchers (with the network, the browser and the clock
    as explicit oracles), the electricity de-duplication loop and the two
    chunking message formatters.

    Python [str] is a sequence of Unicode code points and [len] counts code
    points, so a string is a [list N] of code points here.  String literals
    are written as in the source and decoded from UTF-8 by [u]. *)

From Stdlib Require Import DecimalString Strings.String Strings.Byte NArith ZArith List Lia.
From stdpp Require Import gmap strings list.

Open Scope string_scope.
Open Scope list_scope.
Open Scope nat_scope.

(** ** Strings as code-point lists *)

Definition char : Type := N.
Definition str : Type := list char.

(** UTF-8 decoding of a byte sequence (well-formed input assumed; a stray
    byte is passed through unchanged). *)
Fixpoint utf8_decode (bs : list N) : str :=
  match bs with
  | [] => []
  | b0 :: r0 =>
    if (b0 <? 128)%N then b0 :: utf8_decode r0
    else match r0 with
    | [] => [b0]
    | b1 :: r1 =>
      if (b0 <? 224)%N
      then (N.lor (N.shiftl (N.land b0 31) 6) (N.land b1 63)) :: utf8_decode r1
      else match r1 with
      | [] => [b0; b1]
      | b2 :: r2 =>
        if (b0 <? 240)%N
        then (N.lor (N.shiftl (N.land b0 15) 12)
                (N.lor (N.shiftl (N.land b1 63) 6) (N.land b2 63))) :: utf8_decode r2
        else match r2 with
        | [] => [b0; b1; b2]
        | b3 :: r3 =>
          (N.lor (N.shiftl (N.land b0 7) 18)
             (N.lor (N.shiftl (N.land b1 63) 12)
                (N.lor (N.shiftl (N.land b2 63) 6) (N.land b3 63)))) :: utf8_decode r3
        end
      end
    end
  end.

(** A source literal as a Python string. *)
Definition u (s : string) : str :=
  utf8_decode (map Byte.to_N (list_byte_of_string s)).

(** [str(n)] for a non-negative integer. *)
Definition dec (n : nat) : str := u (NilZero.string_of_uint (Nat.to_uint n)).

(** [s.startswith(pre)] *)
Fixpoint starts_with (pre s : str) : bool :=
  match pre, s with
  | [], _ => true
  | _ :: _, [] => false
  | a :: pre', b :: s' => (a =? b)%N && starts_with pre' s'
  end.

(** [s.find(sub)]: the lowest index at which [sub] occurs; [None] stands for
    Python's [-1]. *)
Fixpoint find (s sub : str) : option nat :=
  if starts_with sub s then Some 0
  else match s with
       | [] => None
       | _ :: s' => S <$> find s' sub
       end.

(** [sub in s] *)
Definition contains (s sub : str) : bool := bool_decide (is_Some (find s sub)).

(** [c.isspace()]: the characters Python's [str.strip()] removes. *)
Definition is_space (c : char) : bool :=
  ((9 <=? c) && (c <=? 13) || (28 <=? c) && (c <=? 32)
   || (c =? 133) || (c =? 160) || (c =? 5760)
   || (8192 <=? c) && (c <=? 8202)
   || (c =? 8232) || (c =? 8233) || (c =? 8239) || (c =? 8287) || (c =? 12288))%N.

Fixpoint lstrip (s : str) : str :=
  match s with
  | [] => []
  | c :: s' => if is_space c then lstrip s' else s
  end.

Definition rstrip (s : str) : str := rev (lstrip (rev s)).

(** [s.strip()] *)
Definition strip (s : str) : str := rstrip (lstrip s).

(** ** Exceptions *)

Inductive exn : Type :=
| ValueError
| IndexError
| KeyError
| External (what : string).

Inductive res (A : Type) : Type :=
| Val (a : A)
| Exc (e : exn).
Arguments Val {A} a.
Arguments Exc {A} e.

#[export] Instance res_ret : MRet res := λ A a, Val a.
#[export] Instance res_bind : MBind res :=
  λ A B f m, match m with Val a => f a | Exc e => Exc e end.

(** [try: body  except Exception: handler] *)
Definition try_except {A} (body : res A) (handler : exn → A) : A :=
  match body with Val a => a | Exc e => handler e end.

(** [l[i]] *)
Definition index {A} (l : list A) (i : nat) : res A :=
  match l !! i with Some a => Val a | None => Exc IndexError end.

(** [text.split(sep, 1)] *)
Definition split1 (text sep : str) : res (list str) :=
  match sep with
  | [] => Exc ValueError
  | _ :: _ =>
    match find text sep with
    | None => Val [text]
    | Some p => Val [take p text; drop (p + length sep) text]
    end
  end.

(** ** The field extractor ([WaterStopsService._extract_field]) *)

Definition field_markers : list str :=
  [u "Тип:"; u "Описание:"; u "Начало:"; u "Край:"].

(** The five labels of a water-stop cell, as [_parse_water_stops] looks
    them up. *)
Definition field_labels : list str :=
  [u "Местоположение:"; u "Тип:"; u "Описание:"; u "Начало:"; u "Край:"].

(** The loop that finds the nearest field marker. *)
Definition nearest_marker (remaining : str) : nat :=
  fold_left
    (λ next_marker_pos marker,
       match find remaining marker with
       | Some pos => if pos <? next_marker_pos then pos else next_marker_pos
       | None => next_marker_pos
       end)
    field_markers (length remaining).

(** [v if v else None] *)
Definition or_none (v : str) : option str :=
  match v with [] => None | _ :: _ => Some v end.

Definition extract_field_body (text field_name : str) : res (option str) :=
  if negb (contains text field_name) then Val None
  else
    parts ← split1 text field_name;
    if length parts <? 2 then Val None
    else
      remaining ← index parts 1;
      let next_marker_pos := nearest_marker remaining in
      let field_value := strip (take next_marker_pos remaining) in
      Val (or_none field_value).

Definition extract_field (text field_name : str) : option str :=
  try_except (extract_field_body text field_name) (λ _, None).

(** ** Records, service state and the fetch monad *)

(** An outage record is a Python dict from field names to display strings. *)
Abbreviation stop := (gmap string str).

(** [d.get(k, default)] *)
Definition get_or (d : stop) (k : string) (dflt : str) : str :=
  default dflt (d !! k).

(** [d[k]] *)
Definition getitem (d : stop) (k : string) : res str :=
  match d !! k with Some v => Val v | None => Exc KeyError end.

(** Truth value of a Python list or string. *)
Definition truthy {A} (l : list A) : bool :=
  match l with [] => false | _ :: _ => true end.

(** The instance fields [cache] and [cache_time]; times are microseconds. *)
Record service : Type := Service {
  cache : option (list stop);
  cache_time : option Z
}.

(** [__init__] *)
Definition init : service := Service None None.

(** [timedelta(minutes=30)] *)
Definition cache_duration : Z := 30 * 60 * 1000000.

(** Calls made to the collaborators (browser automation, HTTP client). *)
Inductive event : Type :=
| Browser (what : string)
| HttpSession
| HttpGet
| HttpPost (muni_id : str).

Record world : Type := World {
  self : service;
  calls : list event
}.

(** Computations that read and write the service fields, call the
    collaborators and may raise.  A raised exception keeps the writes made
    before it. *)
Definition M (A : Type) : Type := world → res A * world.

#[export] Instance M_ret : MRet M := λ A a w, (Val a, w).
#[export] Instance M_bind : MBind M :=
  λ A B f m w, match m w with
               | (Val a, w') => f a w'
               | (Exc e, w') => (Exc e, w')
               end.

Definition get_cache : M (option (list stop)) := λ w, (Val (cache (self w)), w).
Definition get_cache_time : M (option Z) := λ w, (Val (cache_time (self w)), w).
Definition set_cache (v : list stop) : M unit :=
  λ w, (Val (), World (Service (Some v) (cache_time (self w))) (calls w)).
Definition set_cache_time (t : Z) : M unit :=
  λ w, (Val (), World (Service (cache (self w)) (Some t)) (calls w)).

(** A collaborator call with the outcome the environment gives it. *)
Definition call {A} (e : event) (outcome : res A) : M A :=
  λ w, (outcome, World (self w) (calls w ++ [e])).

(** A pure, possibly raising, computation. *)
Definition lift {A} (r : res A) : M A := λ w, (r, w).

(** [try: body  except Exception as e: handler] *)
Definition try_M {A} (body : M A) (handler : exn → M A) : M A :=
  λ w, match body w with
       | (Val a, w') => (Val a, w')
       | (Exc e, w') => handler e w'
       end.

(** ** The water fetcher *)

(** What the HTML-query collaborator answers on the rendered page: for a
    section id, the section div if present, in it the table of class
    [tableWaterStopInfo] if present, and for each row of class
    [trRowDefault] the text of its first cell ([None] when the row has no
    cell), or the exception raised while querying the row. *)
Definition dom : Type := string → option (option (list (res (option str)))).

(** The markup returned by [page.content()], with what
    [BeautifulSoup(html, 'lxml')] makes of it. *)
Record html : Type := Html { lxml : res dom }.

Record water_env : Type := WaterEnv {
  w_now_check : Z;        (* datetime.now() in the freshness test *)
  w_launch : res unit;    (* async_playwright(), chromium.launch(), new_page() *)
  w_goto : res unit;      (* page.goto(url) *)
  w_settle : res unit;    (* page.wait_for_timeout(3000) *)
  w_splash : res unit;    (* page.wait_for_selector(splash, state='hidden') *)
  w_expand : res unit;    (* page.evaluate(click accordion), wait_for_timeout(2000) *)
  w_settle2 : res unit;   (* page.wait_for_timeout(2000) *)
  w_content : res html;   (* page.content() *)
  w_close : res unit;     (* browser.close() *)
  w_now_store : Z;        (* datetime.now() when the cache is written *)
  w_exit : res unit       (* leaving the [async with] block on return *)
}.

(** The body of the row loop of [_parse_water_stops], with its own
    [try/except] that skips a failing row. *)
Definition parse_row (category : str) (row : res (option str)) : list stop :=
  try_except
    (cell ← row;
     match cell with
     | None => Val []
     | Some text =>
       let location := extract_field text (u "Местоположение:") in
       let stop_type := extract_field text (u "Тип:") in
       let description := extract_field text (u "Описание:") in
       let start_time := extract_field text (u "Начало:") in
       let end_time := extract_field text (u "Край:") in
       if bool_decide (is_Some location) || bool_decide (is_Some start_time)
          || bool_decide (is_Some end_time)
       then Val [ ({[ "location" := default (u "Location not specified") location;
                      "type" := default (u "Unknown") stop_type;
                      "description" := default [] description;
                      "start" := default (u "Time not specified") start_time;
                      "end" := default (u "Time not specified") end_time;
                      "category" := category ]} : stop) ]
       else Val []
     end)
    (λ _, []).

Definition parse_section (soup : dom) (id : string) (category : str) : list stop :=
  match soup id with
  | None => []
  | Some None => []
  | Some (Some rows) => concat (map (parse_row category) rows)
  end.

(** [_parse_water_stops] *)
Definition parse_water_stops (h : html) : res (list stop) :=
  soup ← lxml h;
  Val (parse_section soup "infrastructureAlertsContent" (u "current")
       ++ parse_section soup "sanitaryBackupContent" (u "planned")).

(** The guarded body of [get_water_stops]. *)
Definition water_fetch (env : water_env) : M (list stop) :=
  call (Browser "launch") (w_launch env);;
  call (Browser "goto") (w_goto env);;
  call (Browser "wait_for_timeout") (w_settle env);;
  try_M (call (Browser "wait_for_selector") (w_splash env)) (λ _, mret ());;
  try_M (call (Browser "evaluate") (w_expand env)) (λ _, mret ());;
  call (Browser "wait_for_timeout") (w_settle2 env);;
  h ← call (Browser "content") (w_content env);
  call (Browser "close") (w_close env);;
  stops ← lift (parse_water_stops h);
  set_cache stops;;
  set_cache_time (w_now_store env);;
  lift (w_exit env);;
  mret stops.

(** [WaterStopsService.get_water_stops] *)
Definition get_water_stops (env : water_env) : M (list stop) :=
  c ← get_cache;
  t ← get_cache_time;
  match c, t with
  | Some ((_ :: _) as cached), Some t0 =>
    if bool_decide (w_now_check env - t0 < cache_duration)%Z then mret cached
    else try_M (water_fetch env) (λ _, mret [])
  | _, _ => try_M (water_fetch env) (λ _, mret [])
  end.

(** ** The electricity fetcher *)

(** [(municipality_id, municipality_name, region_name)] *)
Definition muni : Type := str * str * str.

Record elec_env : Type := ElecEnv {
  e_now_check : Z;                          (* datetime.now() in the freshness test *)
  e_session : res unit;                     (* aiohttp.ClientSession() *)
  e_list_page : res unit;                   (* session.get(base_url), response.text() *)
  e_municipality_ids : res (list muni);     (* _parse_municipality_ids(html) *)
  e_details : nat → muni → res (list stop); (* _fetch_municipality_details, k-th entry *)
  e_now_store : Z;                          (* datetime.now() when the cache is written *)
  e_exit : res unit                         (* leaving the [async with] block on return *)
}.

(** The loop over the municipalities, each fetched under its own
    [try/except]. *)
Fixpoint fetch_details (env : elec_env) (k : nat) (ids : list muni)
    (stops : list stop) : M (list stop) :=
  match ids with
  | [] => mret stops
  | m :: rest =>
    stops' ← try_M (muni_stops ← call (HttpPost m.1.1) (e_details env k m);
                    mret (stops ++ muni_stops))
                   (λ _, mret stops);
    fetch_details env (S k) rest stops'
  end.

Abbreviation dedup_key := (str * str * str * str)%type.

Definition stop_key (s : stop) : res dedup_key :=
  location ← getitem s "location";
  start ← getitem s "start";
  end_ ← getitem s "end";
  category ← getitem s "category";
  Val (location, start, end_, category).

(** The de-duplication loop of [get_electricity_stops]. *)
Fixpoint dedup_loop (stops : list stop) (seen : gset dedup_key)
    (unique_stops : list stop) : res (list stop) :=
  match stops with
  | [] => Val unique_stops
  | s :: rest =>
    key ← stop_key s;
    if bool_decide (key ∉ seen)
    then dedup_loop rest ({[ key ]} ∪ seen) (unique_stops ++ [s])
    else dedup_loop rest seen unique_stops
  end.

(** The guarded body of [get_electricity_stops]. *)
Definition electricity_fetch (env : elec_env) : M (list stop) :=
  call HttpSession (e_session env);;
  call HttpGet (e_list_page env);;
  municipality_ids ← lift (e_municipality_ids env);
  if negb (truthy municipality_ids) then
    set_cache [];;
    set_cache_time (e_now_store env);;
    lift (e_exit env);;
    mret []
  else
    stops ← fetch_details env 0 municipality_ids [];
    unique_stops ← lift (dedup_loop stops ∅ []);
    set_cache unique_stops;;
    set_cache_time (e_now_store env);;
    lift (e_exit env);;
    mret unique_stops.

(** [ElectricityStopsService.get_electricity_stops] *)
Definition get_electricity_stops (env : elec_env) : M (list stop) :=
  c ← get_cache;
  t ← get_cache_time;
  match c, t with
  | Some cached, Some t0 =>
    if bool_decide (e_now_check env - t0 < cache_duration)%Z then mret cached
    else try_M (electricity_fetch env) (λ _, mret [])
  | _, _ => try_M (electricity_fetch env) (λ _, mret [])
  end.

(** ** The message formatters *)

(** What a formatter returns: [None], a single string, or a list of strings. *)
Inductive message : Type :=
| MNone
| MStr (m : str)
| MList (messages : list str).

Definition nl : str := [10%N].

(** [enumerate(l, start)] *)
Fixpoint enumerate {A} (start : nat) (l : list A) : list (nat * A) :=
  match l with
  | [] => []
  | x :: l' => (start, x) :: enumerate (S start) l'
  end.

(** [random.choice(pool)], the generator's draw being [rnd]. *)
Definition choice {A} (pool : list A) (rnd : nat) : res A :=
  match pool with
  | [] => Exc IndexError
  | _ :: _ => index pool (rnd mod length pool)
  end.

(** [messages[-1] += s] *)
Definition append_to_last (messages : list str) (s : str) : res (list str) :=
  match messages with
  | [] => Exc IndexError
  | _ :: _ => Val (alter (λ m, m ++ s) (length messages - 1) messages)
  end.

(** The splitting loop shared, up to the entry text and the banner of a
    continuation chunk, by the four sections of the two formatters:
<<
    for i, stop in enumerate(stops, 1):
        entry = ...
        if len(chunk_msg) + len(entry) > 1900:
            messages.append(chunk_msg)
            chunk_msg = <banner, from messages>
        chunk_msg += entry
>> *)
Fixpoint chunk_loop (entry : nat → stop → str) (banner : list str → str)
    (stops : list (nat * stop)) (messages : list str) (chunk_msg : str)
    : list str * str :=
  match stops with
  | [] => (messages, chunk_msg)
  | (i, s) :: rest =>
    if 1900 <? length chunk_msg + length (entry i s)
    then let messages := messages ++ [chunk_msg] in
         chunk_loop entry banner rest messages (banner messages ++ entry i s)
    else chunk_loop entry banner rest messages (chunk_msg ++ entry i s)
  end.

(** One section: the single-message rendering, and the split into chunks
    when that is longer than 1900. *)
Definition section (single : nat → stop → str) (entry : nat → stop → str)
    (counted : str) (part1 : str) (banner : list str → str)
    (stops : list stop) (messages : list str) : list str :=
  if truthy stops then
    let msg := fold_left (λ msg '(i, s), msg ++ single i s) (enumerate 1 stops) counted in
    if 1900 <? length msg then
      let '(messages, chunk_msg) :=
        chunk_loop entry banner (enumerate 1 stops) messages part1 in
      if truthy chunk_msg then messages ++ [chunk_msg] else messages
    else messages ++ [msg]
  else messages.

(** The end of both formatters: the footer on the last message, and the
    shape of the returned value. *)
Definition finish (footers : list str) (messages : list str) (rnd : nat) : res message :=
  messages ← (if truthy messages
              then footer ← choice footers rnd; append_to_last messages footer
              else Val messages);
  if 1 <? length messages then Val (MList messages)
  else if truthy messages then m ← index messages 0; Val (MStr m)
  else Val MNone.

Module Water.

Definition header : str :=
  u "💧 **Water Supply Interruptions**" ++ nl ++ nl
  ++ u "_Sofia Water announces the following interruptions:_" ++ nl ++ nl.

Definition current_entry (i : nat) (s : stop) : str :=
  let location := take 100 (get_or s "location" (u "Location unspecified")) in
  let start := get_or s "start" (u "Time unspecified") in
  let end_ := get_or s "end" (u "Time unspecified") in
  u "**" ++ dec i ++ u ".** " ++ location ++ nl
  ++ u "   ⏰ " ++ start ++ u " → " ++ end_ ++ nl ++ nl.

Definition planned_entry (i : nat) (s : stop) : str :=
  let location := take 100 (get_or s "location" (u "Location unspecified")) in
  let start := get_or s "start" (u "Time unspecified") in
  let end_ := get_or s "end" (u "Time unspecified") in
  u "**" ++ dec i ++ u ".** " ++ location ++ nl
  ++ u "   📅 " ++ start ++ u " → " ++ end_ ++ nl ++ nl.

Definition current_counted (n : nat) : str :=
  u "⚡ **CURRENT STOPS** (" ++ dec n ++ u ")" ++ nl ++ nl.
Definition current_part (n : nat) : str :=
  u "⚡ **CURRENT STOPS** (Part " ++ dec n ++ u ")" ++ nl ++ nl.
Definition planned_counted (n : nat) : str :=
  u "📋 **PLANNED STOPS** (" ++ dec n ++ u ")" ++ nl ++ nl.
Definition planned_part (n : nat) : str :=
  u "📋 **PLANNED STOPS** (Part " ++ dec n ++ u ")" ++ nl ++ nl.

Definition footers : list str :=
  [ nl ++ u "_Do fill your kettle beforehand._";
    nl ++ u "_The Victorians managed with pumps._";
    nl ++ u "_Municipal inconvenience, as scheduled._";
    nl ++ u "_Mustn't grumble._" ].

(** [WaterStopsService.format_water_stops_message] *)
Definition format_water_stops_message (stops : list stop) (rnd : nat) : res message :=
  if negb (truthy stops) then Val MNone
  else
    let current_stops := filter (λ s : stop, s !! "category" = Some (u "current")) stops in
    let planned_stops := filter (λ s : stop, s !! "category" = Some (u "planned")) stops in
    let messages := [] in
    let messages :=
      section current_entry current_entry
        (header ++ current_counted (length current_stops))
        (header ++ current_part 1)
        (λ messages, current_part (length messages + 1))
        current_stops messages in
    let messages :=
      section planned_entry planned_entry
        (planned_counted (length planned_stops))
        (planned_part 1)
        (λ messages,
           planned_part (length messages
                         - length (filter (λ m, contains m (u "CURRENT") = true) messages)
                         + 1))
        planned_stops messages in
    finish footers messages rnd.

End Water.

Module Electricity.

Definition header : str :=
  u "**Electricity Supply Interruptions**" ++ nl ++ nl
  ++ u "_ERM Zapad announces the following interruptions:_" ++ nl ++ nl.

Definition unplanned_counted (n : nat) : str :=
  u "**CURRENT OUTAGES** (" ++ dec n ++ u ")" ++ nl ++ nl.
Definition unplanned_part (n : nat) : str :=
  u "**CURRENT OUTAGES** (Part " ++ dec n ++ u ")" ++ nl ++ nl.
Definition planned_counted (n : nat) : str :=
  u "**PLANNED MAINTENANCE** (" ++ dec n ++ u ")" ++ nl ++ nl.
Definition planned_part (n : nat) : str :=
  u "**PLANNED MAINTENANCE** (Part " ++ dec n ++ u ")" ++ nl ++ nl.

Definition footers : list str :=
  [ nl ++ u "_Do charge your devices beforehand._";
    nl ++ u "_The Victorians managed with gas lamps._";
    nl ++ u "_Modern inconvenience, as scheduled._";
    nl ++ u "_Best locate the candles._" ].

(** The entry of the splitting loop: location and times only. *)
Definition entry (i : nat) (s : stop) : str :=
  let location := take 80 (get_or s "location" (u "Location unspecified")) in
  let start := get_or s "start" (u "Time unspecified") in
  let end_ := get_or s "end" (u "Time unspecified") in
  u "**" ++ dec i ++ u ".** " ++ location ++ nl
  ++ u "   " ++ start ++ u " - " ++ end_ ++ nl ++ nl.

Section with_upper.

(** Python's [str.upper], a table of the interpreter. *)
Variable upper : str → str.

(** The location line of the single-message rendering. *)
Definition loc_str (s : stop) : str :=
  let location := take 80 (get_or s "location" (u "Location unspecified")) in
  let municipality := get_or s "municipality" [] in
  let region := get_or s "region" [] in
  let loc_str := location in
  let loc_str :=
    if truthy municipality && negb (contains (upper location) (upper municipality))
    then loc_str ++ u ", " ++ municipality else loc_str in
  if truthy region then loc_str ++ u " (" ++ region ++ u ")" else loc_str.

(** The entry of the single-message rendering. *)
Definition single_entry (i : nat) (s : stop) : str :=
  let start := get_or s "start" (u "Time unspecified") in
  let end_ := get_or s "end" (u "Time unspecified") in
  u "**" ++ dec i ++ u ".** " ++ loc_str s ++ nl
  ++ u "   " ++ start ++ u " - " ++ end_ ++ nl ++ nl.

(** [ElectricityStopsService.format_electricity_stops_message] *)
Definition format_electricity_stops_message (stops : list stop) (rnd : nat)
    : res message :=
  if negb (truthy stops) then Val MNone
  else
    let unplanned_stops :=
      filter (λ s : stop, s !! "category" = Some (u "unplanned")) stops in
    let planned_stops :=
      filter (λ s : stop, s !! "category" = Some (u "planned")) stops in
    let messages := [] in
    let messages :=
      section single_entry entry
        (header ++ unplanned_counted (length unplanned_stops))
        (header ++ unplanned_part 1)
        (λ messages, unplanned_part (length messages + 1))
        unplanned_stops messages in
    let messages :=
      section single_entry entry
        (planned_counted (length planned_stops))
        (planned_part 1)
        (λ messages,
           planned_part
             (length (filter (λ m, contains m (u "PLANNED") = true) messages) + 1))
        planned_stops messages in
    finish footers messages rnd.

End with_upper.

(** [str.upper] on ASCII text (other characters unchanged), for examples
    whose strings are ASCII. *)
Definition ascii_upper (s : str) : str :=
  map (λ c, if (97 <=? c)%N && (c <=? 122)%N then (c - 32)%N else c) s.

End Electricity.

(** ** The electricity detail request and the municipality list *)

(** What [json.loads] makes of a response body, as far as
    [_fetch_municipality_details] looks at it: [None] when the decoded value
    is not an object (it has no [items]); else its items in order, the
    value of each being the dict of an outage, with string fields, or [None]
    when it is not a dict. *)
Definition decoded : Type := option (list (str * option (gmap string str))).

(** An item of the list page with an [onclick] attribute: the groups of
    [re.search(r"show_obstina\('([A-Z]+\d+)','([A-Z]+)'\)", onclick)], if
    it matches, and [li.get_text(strip=True)]. *)
Record li_item : Type := Li {
  li_match : option (str * str);
  li_text : str
}.

(** The region mappings of [_parse_municipality_ids]. *)
Definition region_names : gmap str str :=
  list_to_map
    [ (u "SOF", u "София-град"); (u "SFO", u "Софийска област");
      (u "PER", u "Перник"); (u "LOV", u "Ловеч"); (u "VID", u "Видин");
      (u "KNL", u "Кюстендил"); (u "BLG", u "Благоевград"); (u "PVN", u "Плевен");
      (u "VRC", u "Враца"); (u "MON", u "Монтана") ].

Section interpreter_tables.

(** Python's [str.lower] and [str.capitalize], [json.loads] (raising
    [JSONDecodeError], here [External "JSONDecodeError"]) and
    [re.sub(r'^община\s*', '', name, flags=re.IGNORECASE)]. *)
Variable lower : str → str.
Variable capitalize : str → str.
Variable loads : str → res decoded.
Variable strip_label : str → str.

(** The record built for one outage of a municipality. *)
Definition outage_record (outage : gmap string str) (muni_name region : str) : stop :=
  let type_dist := lower (get_or outage "typedist" []) in
  let is_planned := contains type_dist (u "планиран") in
  {[ "location" :=
       (if truthy (get_or outage "city_name" []) then get_or outage "city_name" []
        else if truthy (get_or outage "cities" []) then get_or outage "cities" []
        else muni_name);
     "municipality" := muni_name;
     "region" := region;
     "start" := get_or outage "begin_event" (u "Не е указано");
     "end" := get_or outage "end_event" (u "Не е указано");
     "category" := (if is_planned then u "planned" else u "unplanned");
     "type_bg" := (if truthy type_dist then capitalize type_dist else u "Неизвестно") ]}.

(** The loop over [result.items()]. *)
Definition outage_records (items : list (str * option (gmap string str)))
    (muni_name region : str) : list stop :=
  concat (map (λ '(key, outage),
                 match outage with
                 | Some outage =>
                   if bool_decide (key = u "cnt") then []
                   else [outage_record outage muni_name region]
                 | None => []
                 end) items).

(** [ElectricityStopsService._fetch_municipality_details], [post] being the
    outcome of the request and of reading its body. *)
Definition fetch_municipality_details (post : res str) (muni_name region : str)
    : res (list stop) :=
  text ← post;
  let text := if starts_with [65279%N] text then drop 1 text else text in
  if negb (truthy text) || bool_decide (text = u "[]") || bool_decide (text = u "{}")
  then Val []
  else
    match loads text with
    | Val (Some items) => Val (outage_records items muni_name region)
    | Val None => Exc (External "AttributeError")
    | Exc (External what) =>
      if String.eqb what "JSONDecodeError" then Val [] else Exc (External what)
    | Exc e => Exc e
    end.

(** [ElectricityStopsService._parse_municipality_ids], on the items that
    [soup.find_all('li', onclick=True)] gives. *)
Definition parse_municipality_ids (items : list li_item) : list muni :=
  concat (map (λ li,
                 match li_match li with
                 | Some (muni_id, region_code) =>
                   if bool_decide (region_code ≠ u "SOF") then []
                   else
                     let region_name := default region_code (region_names !! region_code) in
                     let muni_name := strip (strip_label (li_text li)) in
                     [(muni_id, muni_name, region_name)]
                 | None => []
                 end) items).

End interpreter_tables.

(** * Vocabulary of the specification *)

(** The character that ends every field label. *)
Definition colon : char := 58%N.

(** [n] is a proper suffix of [m]. *)
Definition proper_suffix (n m : str) : bool :=
  (length n <? length m) && bool_decide (drop (length m - length n) m = n).

(** A record that has the four fields of the key. *)
Definition keyed (s : stop) : Prop := ∃ k, stop_key s = Val k.

(** Unfolds the operations of the fetch monad. *)
Ltac unfold_M :=
  unfold mbind, M_bind, mret, M_ret, call, lift, try_M, set_cache, set_cache_time,
    get_cache, get_cache_time in *.

(** The cache entry is fresh at time [now]. *)
Definition electricity_fresh (now : Z) (s : service) : Prop :=
  ∃ cached t0, cache s = Some cached ∧ cache_time s = Some t0
               ∧ (now - t0 < cache_duration)%Z.

(** For the water service an empty cached list does not count. *)
Definition water_fresh (now : Z) (s : service) : Prop :=
  ∃ cached t0, cache s = Some cached ∧ cached ≠ [] ∧ cache_time s = Some t0
               ∧ (now - t0 < cache_duration)%Z.

(** The records gathered from the municipalities whose detail request
    succeeds. *)
Fixpoint collected (env : elec_env) (k : nat) (ids : list muni) : list stop :=
  match ids with
  | [] => []
  | m :: rest =>
    match e_details env k m with Val ss => ss | Exc _ => [] end
    ++ collected env (S k) rest
  end.

(** Example records and environments. *)
Definition example_outage (location start end_ category : string) : stop :=
  {[ "location" := u location; "municipality" := u "Sredets"; "region" := u "Sofia";
     "start" := u start; "end" := u end_; "category" := u category ]}.

(** An electricity source that answers every request. *)
Definition example_elec_env (ids : res (list muni)) (details : res (list stop)) : elec_env :=
  ElecEnv 0 (Val ()) (Val ()) ids (λ _ _, details) 0 (Val ()).

(** The outcome is an exception. *)
Definition raises {A} (r : res A) : Prop := ∃ e, r = Exc e.



(** Case analysis on the next collaborator outcome. *)
Ltac step_outcome :=
  match goal with
  | |- context [match ?r with Val _ => _ | Exc _ => _ end] =>
    let E := fresh "E" in destruct r eqn:E; simpl
  end.


(** A chunk as the formatter builds it: a heading (the banner, after the
    header if any) and the entries appended to it. *)
Definition render (c : str * list str) : str := c.1 ++ concat c.2.

(** A chunk within the limit, or one made of a single entry. *)
Definition bounded (c : str * list str) : Prop :=
  length (render c) ≤ 1900 ∨ length c.2 = 1.

(** The chunks of a section that was split. *)
Definition split_layout (entry : nat → stop → str) (banner : list str → str)
    (part1 : str) (stops : list stop) (cs : list (str * list str)) : Prop :=
  ∃ es cs', cs = (part1, es) :: cs'
    ∧ concat (snd <$> cs) = uncurry entry <$> enumerate 1 stops
    ∧ Forall (λ c, ∃ ms, c.1 = banner ms) cs'
    ∧ Forall bounded cs
    ∧ (1900 < length part1 + length (concat (uncurry entry <$> enumerate 1 stops))
       → cs' ≠ []).

(** The chunks of a section. *)
Definition section_layout (single entry : nat → stop → str) (counted part1 : str)
    (banner : list str → str) (stops : list stop) (cs : list (str * list str)) : Prop :=
  match stops with
  | [] => cs = []
  | _ :: _ =>
    if 1900 <? length (counted ++ concat (uncurry single <$> enumerate 1 stops))
    then split_layout entry banner part1 stops cs
    else cs = [(counted, uncurry single <$> enumerate 1 stops)]
  end.

(** [messages[-1] += footer] on a list. *)
Definition with_footer (ms : list str) (footer : str) : list str :=
  alter (λ m, m ++ footer) (length ms - 1) ms.

(** The value returned for a list of messages. *)
Definition shape (ms : list str) : message :=
  match ms with
  | [] => MNone
  | [m] => MStr m
  | _ :: _ :: _ => MList ms
  end.

(** Evaluates the literal at the head of a concatenation. *)
Ltac eval_head_literal :=
  match goal with
  | |- context [u ?lit ++ ?rest] =>
    let v := eval vm_compute in (u lit) in
    change (u lit ++ rest) with (v ++ rest)
  end.

(** A heading that does not begin like [header]. *)
Definition other_heading (header h : str) : Prop :=
  ∃ a b c r, h = a :: b :: c :: r ∧ [a; b; c] ≠ take 3 header.

(** The category groups of the two formatters. *)
Definition water_current (stops : list stop) : list stop :=
  filter (λ s : stop, s !! "category" = Some (u "current")) stops.

Definition water_planned (stops : list stop) : list stop :=
  filter (λ s : stop, s !! "category" = Some (u "planned")) stops.

Definition electricity_unplanned (stops : list stop) : list stop :=
  filter (λ s : stop, s !! "category" = Some (u "unplanned")) stops.

Definition electricity_planned (stops : list stop) : list stop :=
  filter (λ s : stop, s !! "category" = Some (u "planned")) stops.

(** The chunks of the CURRENT STOPS section of the water message ... *)
Definition water_current_layout (g : list stop) : list (str * list str) → Prop :=
  section_layout Water.current_entry Water.current_entry
    (Water.header ++ Water.current_counted (length g))
    (Water.header ++ Water.current_part 1)
    (λ messages, Water.current_part (length messages + 1)) g.

(** ... and of its PLANNED STOPS section. *)
Definition water_planned_layout (g : list stop) : list (str * list str) → Prop :=
  section_layout Water.planned_entry Water.planned_entry
    (Water.planned_counted (length g))
    (Water.planned_part 1)
    (λ messages,
       Water.planned_part
         (length messages
          - length (filter (λ m, contains m (u "CURRENT") = true) messages) + 1)) g.

(** The chunks of the CURRENT OUTAGES section of the electricity message ... *)
Definition electricity_unplanned_layout (upper : str → str) (g : list stop)
    : list (str * list str) → Prop :=
  section_layout (Electricity.single_entry upper) Electricity.entry
    (Electricity.header ++ Electricity.unplanned_counted (length g))
    (Electricity.header ++ Electricity.unplanned_part 1)
    (λ messages, Electricity.unplanned_part (length messages + 1)) g.

(** ... and of its PLANNED MAINTENANCE section. *)
Definition electricity_planned_layout (upper : str → str) (g : list stop)
    : list (str * list str) → Prop :=
  section_layout (Electricity.single_entry upper) Electricity.entry
    (Electricity.planned_counted (length g))
    (Electricity.planned_part 1)
    (λ messages,
       Electricity.planned_part
         (length (filter (λ m, contains m (u "PLANNED") = true) messages) + 1)) g.

(** The entries a section renders: those of the splitting loop when the
    single message is too long, else those of the single message. *)
Definition section_entries (single entry : nat → stop → str) (counted : str)
    (g : list stop) : list str :=
  if 1900 <? length (counted ++ concat (uncurry single <$> enumerate 1 g))
  then uncurry entry <$> enumerate 1 g
  else uncurry single <$> enumerate 1 g.

(** The text that heads a chunk of the water message: the header and the
    banner of the first section, or a banner alone. *)
Definition water_heading (h : str) : Prop :=
  (∃ n, h = Water.header ++ Water.current_counted n)
  ∨ h = Water.header ++ Water.current_part 1
  ∨ (∃ n, h = Water.current_part n)
  ∨ (∃ n, h = Water.planned_counted n)
  ∨ (∃ n, h = Water.planned_part n).

(** The same for the electricity message. *)
Definition electricity_heading (h : str) : Prop :=
  (∃ n, h = Electricity.header ++ Electricity.unplanned_counted n)
  ∨ h = Electricity.header ++ Electricity.unplanned_part 1
  ∨ (∃ n, h = Electricity.unplanned_part n)
  ∨ (∃ n, h = Electricity.planned_counted n)
  ∨ (∃ n, h = Electricity.planned_part n).

(** ['x' * n] *)
Definition xs (n : nat) : str := repeat 120%N n.

(** A record whose start text is 1900 characters long. *)
Definition long_start (category : string) : stop :=
  {[ "location" := u "Lozenets"; "start" := xs 1900; "end" := u "16:00";
     "category" := u category ]}.

(** A record with a long municipality name. *)
Definition remote (i : nat) : stop :=
  {[ "location" := u "A"; "municipality" := repeat 109%N 250; "region" := u "Sofia";
     "start" := u "08:00"; "end" := u "16:00"; "category" := u "unplanned" ]}.

(** A returned value that is not a blank: no empty string, no list shorter
    than two, no empty string in a list. *)
Definition nonblank (m : message) : Prop :=
  match m with
  | MNone => True
  | MStr s => s ≠ []
  | MList l => 2 ≤ length l ∧ Forall (λ s, s ≠ []) l
  end.

(** A record as [_parse_water_stops] builds it: the six fields, location,
    type, start and end not empty, the category one of the two sections'. *)
Definition water_record (s : stop) : Prop :=
  (∃ v, s !! "location" = Some v ∧ v ≠ [])
  ∧ (∃ v, s !! "type" = Some v ∧ v ≠ [])
  ∧ is_Some (s !! "description")
  ∧ (∃ v, s !! "start" = Some v ∧ v ≠ [])
  ∧ (∃ v, s !! "end" = Some v ∧ v ≠ [])
  ∧ (s !! "category" = Some (u "current") ∨ s !! "category" = Some (u "planned")).

(** The cache of the water service holds parsed records only. *)
Definition water_cache_ok (s : service) : Prop :=
  ∀ cached, cache s = Some cached → Forall water_record cached.

(** The water environment with other outcomes of the two guarded waits. *)
Definition with_waits (env : water_env) (splash expand : res unit) : water_env :=
  WaterEnv (w_now_check env) (w_launch env) (w_goto env) (w_settle env) splash expand
    (w_settle2 env) (w_content env) (w_close env) (w_now_store env) (w_exit env).

(** A water page whose planned section has the given rows. *)
Definition example_page (rows : list (res (option str))) : html :=
  Html (Val (λ id, if String.eqb id "sanitaryBackupContent" then Some (Some rows) else None)).

(** A water source that answers every call, showing the given page at the
    given time. *)
Definition answering_water_env (now : Z) (page : html) : water_env :=
  WaterEnv now (Val ()) (Val ()) (Val ()) (Val ()) (Val ()) (Val ()) (Val page) (Val ())
    now (Val ()).


(** A record as [_fetch_municipality_details] builds it for a municipality:
    the four fields of the key, the municipality and the region as passed,
    a type, and one of the two categories of the formatter. *)
Definition electricity_record (muni_name region : str) (s : stop) : Prop :=
  keyed s
  ∧ s !! "municipality" = Some muni_name
  ∧ s !! "region" = Some region
  ∧ is_Some (s !! "type_bg")
  ∧ (s !! "category" = Some (u "planned") ∨ s !! "category" = Some (u "unplanned")).

(** [U+FEFF], the byte-order mark. *)
Definition bom : char := 65279%N.

(** Interpreter tables for examples whose texts are already in lower case,
    and a decoder that gives the same object for every body. *)
Definition example_loads (items : list (str * option (gmap string str))) : str → res decoded :=
  λ _, Val (Some items).

Definition example_planned_outage : gmap string str :=
  {[ "city_name" := u "Lozenets"; "typedist" := u "планирано";
     "begin_event" := u "08:00"; "end_event" := u "16:00" ]}.

(** The identifier that [_parse_municipality_ids] keeps of a list item, if
    any: the first group of a match whose region code is SOF. *)
Definition sofia_id (li : li_item) : option str :=
  match li_match li with
  | Some (muni_id, region_code) =>
    if bool_decide (region_code = u "SOF") then Some muni_id else None
  | None => None
  end.





(** Two records that show the same in a water message ... *)
Definition water_alike (s t : stop) : Prop :=
  s !! "location" = t !! "location" ∧ s !! "start" = t !! "start"
  ∧ s !! "end" = t !! "end".

(** ... and in an electricity message. *)
Definition electricity_alike (s t : stop) : Prop :=
  water_alike s t ∧ s !! "municipality" = t !! "municipality"
  ∧ s !! "region" = t !! "region".

(** The messages of a returned value. *)
Definition messages_of (m : message) : list str :=
  match m with
  | MNone => []
  | MStr s => [s]
  | MList ms => ms
  end.

(** A record with a description and a type, and one of a category that no
    section shows. *)
Definition described (category : string) : stop :=
  <[ "description" := u "burst pipe" ]>
    (<[ "type" := u "Авария" ]> (example_outage "Oborishte 1" "08:00" "16:00" category)).

(** * Properties *)

(** ** Substring search *)

Lemma starts_with_iff (pre s : str) :
  starts_with pre s = true ↔ ∃ r, s = pre ++ r.
Proof.
  revert s. induction pre as [|a pre IH]; intros s; simpl.
  - split; [eauto | done].
  - destruct s as [|b s].
    + split; [done | by intros [r ?]].
    + rewrite andb_true_iff, N.eqb_eq, IH. split.
      * intros [-> [r ->]]. eauto.
      * intros [r [= -> ->]]. eauto.
Qed.

Lemma find_unfold (s sub : str) :
  find s sub =
    if starts_with sub s then Some 0
    else match s with [] => None | _ :: s' => S <$> find s' sub end.
Proof. by destruct s. Qed.

(** [find] returns an index at which [sub] occurs ... *)
Lemma find_Some_occurs (s sub : str) (p : nat) :
  find s sub = Some p → ∃ b, s = take p s ++ sub ++ b ∧ p ≤ length s.
Proof.
  revert p. induction s as [|c s IH]; intros p; rewrite find_unfold.
  - destruct (starts_with sub []) eqn:E; [|done].
    intros [= <-]. apply starts_with_iff in E as [r E]. exists r. split; [done | simpl; lia].
  - destruct (starts_with sub (c :: s)) eqn:E.
    + intros [= <-]. apply starts_with_iff in E as [r E]. exists r. split; [done | simpl; lia].
    + destruct (find s sub) as [q|] eqn:F; [|done].
      intros [= <-]. destruct (IH q eq_refl) as (b & Hb & Hle).
      exists b. simpl. split; [by f_equal | lia].
Qed.

(** ... and no occurrence starts before it. *)
Lemma find_Some_first (s sub : str) (p : nat) (a b : str) :
  find s sub = Some p → s = a ++ sub ++ b → p ≤ length a.
Proof.
  revert p a. induction s as [|c s IH]; intros p a; rewrite find_unfold.
  - destruct (starts_with sub []); [intros [= <-]; lia | done].
  - destruct (starts_with sub (c :: s)) eqn:E; [intros [= <-]; lia|].
    destruct (find s sub) as [q|] eqn:F; [|done].
    intros [= <-] Hs. destruct a as [|c' a].
    + assert (starts_with sub (c :: s) = true) by (apply starts_with_iff; eauto).
      congruence.
    + injection Hs as -> Hs. simpl. specialize (IH q a eq_refl Hs). lia.
Qed.

Lemma find_None_iff (s sub : str) :
  find s sub = None ↔ ∀ a b, s ≠ a ++ sub ++ b.
Proof.
  induction s as [|c s IH]; rewrite find_unfold.
  - destruct (starts_with sub []) eqn:E.
    + apply starts_with_iff in E as [r E]. split; [done|].
      intros H. by destruct (H [] r).
    + split; [|done]. intros _ a b H.
      assert (starts_with sub [] = true); [|congruence].
      apply starts_with_iff. destruct a; [eauto | done].
  - destruct (starts_with sub (c :: s)) eqn:E.
    + apply starts_with_iff in E as [r E]. split; [done|].
      intros H. by destruct (H [] r).
    + destruct (find s sub) as [q|] eqn:F; simpl.
      * split; [done|]. intros H. exfalso.
        destruct (find_Some_occurs _ _ _ F) as (b & Hb & _).
        apply (H (c :: take q s) b). simpl. by f_equal.
      * split; [|done]. intros _ a b H. destruct a as [|c' a].
        -- assert (starts_with sub (c :: s) = true) by (apply starts_with_iff; eauto).
           congruence.
        -- injection H as -> H. by apply (proj1 IH eq_refl a b).
Qed.

(** The first occurrence is found where it is. *)
Lemma find_first_occurrence (a sub b : str) :
  (∀ a' b', a ++ sub ++ b = a' ++ sub ++ b' → length a ≤ length a') →
  find (a ++ sub ++ b) sub = Some (length a).
Proof.
  intros Hfirst. destruct (find (a ++ sub ++ b) sub) as [p|] eqn:F.
  - f_equal. apply Nat.le_antisymm.
    + by eapply find_Some_first.
    + destruct (find_Some_occurs _ _ _ F) as (b' & Hb' & Hle).
      specialize (Hfirst _ _ Hb'). rewrite length_take in Hfirst. lia.
  - exfalso. by apply (proj1 (find_None_iff _ _) F a b).
Qed.

(** ** Labels ending in a colon *)

(** Text split at the first occurrence of a character splits in one way. *)
Lemma first_char_split (c : char) (l1 l2 r1 r2 : str) :
  c ∉ l1 → c ∉ l2 → l1 ++ c :: r1 = l2 ++ c :: r2 → l1 = l2.
Proof.
  revert l2. induction l1 as [|x l1 IH]; intros [|y l2] H1 H2 H; simpl in *.
  - done.
  - injection H as -> _. exfalso. apply H2. by left.
  - injection H as -> _. exfalso. apply H1. by left.
  - injection H as -> H. f_equal. apply IH; [|  |done].
    + intros Hin. apply H1. by right.
    + intros Hin. apply H2. by right.
Qed.

(** A label whose only colon is its last character cannot straddle the end
    of [x] in [x ++ n ++ s]: it lies within [x] or ends with [n]. *)
Lemma label_no_straddle (c : char) (bm bn x r s : str) :
  c ∉ bm → c ∉ bn →
  (bm ++ [c]) ++ r = x ++ (bn ++ [c]) ++ s →
  (∃ y, x = (bm ++ [c]) ++ y) ∨ bm ++ [c] = x ++ bn ++ [c].
Proof.
  intros Hm Hn H.
  rewrite <- !(assoc_L (++)) in H. simpl in H.
  apply app_eq_inv in H as [(k & Hk & Hr) | (k & Hk & Hr)].
  - right. assert (k = bn) as ->.
    { eapply (first_char_split c); [set_solver | done | by symmetry]. }
    by rewrite Hk, !(assoc_L (++)).
  - destruct k as [|d k]; simpl in Hr.
    + right. destruct bn as [|e bn]; [|injection Hr as -> _; set_solver].
      rewrite Hk. by rewrite app_nil_r.
    + left. injection Hr as -> _. exists k. by rewrite Hk, <- (assoc_L (++)).
Qed.

Lemma field_markers_labels (m : str) : m ∈ field_markers → m ∈ field_labels.
Proof. unfold field_markers, field_labels. rewrite !elem_of_cons. tauto. Qed.

Lemma field_labels_colon (l : str) :
  l ∈ field_labels → ∃ b, l = b ++ [colon] ∧ colon ∉ b.
Proof.
  unfold field_labels. rewrite !elem_of_cons, elem_of_nil.
  intros H. exists (removelast l).
  repeat (destruct H as [-> | H];
          [split; [vm_compute; reflexivity | apply (bool_decide_unpack _); vm_compute; exact I] |]).
  done.
Qed.

Lemma proper_suffix_intro (x n : str) : x ≠ [] → proper_suffix n (x ++ n) = true.
Proof.
  intros Hx. unfold proper_suffix. rewrite length_app.
  apply andb_true_iff. split.
  - apply Nat.ltb_lt. destruct x; [done | simpl; lia].
  - apply bool_decide_eq_true.
    replace (length x + length n - length n) with (length x) by lia.
    by rewrite drop_app_length.
Qed.

(** No field label ends with another one. *)
Lemma field_labels_no_suffix (m n x : str) :
  m ∈ field_labels → n ∈ field_labels → m = x ++ n → x = [].
Proof.
  intros Hm Hn E. destruct (decide (x = [])) as [|Hx]; [done | exfalso].
  apply (proper_suffix_intro x n) in Hx. rewrite <- E in Hx.
  assert (forallb (λ m, forallb (λ n, negb (proper_suffix n m)) field_labels)
            field_labels = true) as Hall by (by vm_compute).
  rewrite forallb_forall in Hall. apply list_elem_of_In in Hm, Hn.
  specialize (Hall m Hm). rewrite forallb_forall in Hall.
  specialize (Hall n Hn). by rewrite Hx in Hall.
Qed.

(** ** The nearest marker *)

Lemma nearest_fold (r : str) (ms : list str) (acc : nat) :
  let f := λ next_marker_pos marker,
             match find r marker with
             | Some pos => if pos <? next_marker_pos then pos else next_marker_pos
             | None => next_marker_pos
             end in
  let k := fold_left f ms acc in
  k ≤ acc
  ∧ (∀ m p, m ∈ ms → find r m = Some p → k ≤ p)
  ∧ (k = acc ∨ ∃ m, m ∈ ms ∧ find r m = Some k).
Proof.
  intros f. revert acc. induction ms as [|m ms IH]; intros acc; simpl.
  - split; [lia|]. split; [set_solver | by left].
  - destruct (IH (f acc m)) as (Hle & Hmin & Hex).
    assert (f acc m ≤ acc ∧ (∀ p, find r m = Some p → f acc m ≤ p)
            ∧ (f acc m = acc ∨ find r m = Some (f acc m))) as (Hf1 & Hf2 & Hf3).
    { unfold f. destruct (find r m) as [q|]; [|naive_solver].
      destruct (q <? acc) eqn:E.
      - apply Nat.ltb_lt in E. split; [lia|]. split; [|by right]. intros ? [= <-]. lia.
      - apply Nat.ltb_ge in E. split; [lia|]. split; [|by left]. intros ? [= <-]. lia. }
    split; [lia|]. split.
    + intros m' p [->|Hin]%elem_of_cons Hp.
      * specialize (Hf2 p Hp). lia.
      * by eapply Hmin.
    + destruct Hex as [Hk | (m' & Hin & Hk)].
      * destruct Hf3 as [Hf3 | Hf3].
        -- left. lia.
        -- right. exists m. split; [set_solver|]. by rewrite Hk.
      * right. exists m'. split; [set_solver | done].
Qed.

(** The slice ends at the nearest occurrence of any of the four markers, or
    at the end of the text. *)
Lemma nearest_marker_min (r : str) :
  nearest_marker r ≤ length r
  ∧ (∀ m p, m ∈ field_markers → find r m = Some p → nearest_marker r ≤ p)
  ∧ (nearest_marker r = length r
     ∨ ∃ m, m ∈ field_markers ∧ find r m = Some (nearest_marker r)).
Proof. apply nearest_fold. Qed.

Lemma nearest_marker_at (r : str) (k : nat) (m : str) :
  m ∈ field_markers → find r m = Some k →
  (∀ m' p, m' ∈ field_markers → find r m' = Some p → k ≤ p) →
  nearest_marker r = k.
Proof.
  intros Hm Hk Hmin. destruct (nearest_marker_min r) as (Hle & Hmin' & Hex).
  apply Nat.le_antisymm; [by eapply Hmin'|].
  destruct Hex as [E | (m' & Hm' & E)]; [|by eapply Hmin].
  rewrite E. destruct (find_Some_occurs _ _ _ Hk) as (_ & _ & ?). done.
Qed.

(** ** [_extract_field] *)

Lemma extract_field_first_occurrence (a label b : str) :
  label ≠ [] → find (a ++ label ++ b) label = Some (length a) →
  extract_field (a ++ label ++ b) label
  = or_none (strip (take (nearest_marker b) b)).
Proof.
  intros Hne Hfind. unfold extract_field, extract_field_body, contains, split1.
  rewrite Hfind. rewrite bool_decide_eq_true_2 by eauto. simpl.
  destruct label as [|c label]; [done|]. simpl.
  assert (drop (length a + S (length label)) (a ++ c :: label ++ b) = b) as ->; [|done].
  rewrite <- drop_drop, drop_app_length.
  by rewrite (drop_app_length' (c :: label) b).
Qed.

(** What [_extract_field] returns, in general: [None] when the label does
    not occur; else the trimmed slice of the remainder after the first
    occurrence of the label, up to the nearest occurrence of one of the four
    markers or to the end of the text, or [None] when that is empty. *)
Lemma extract_field_general (text label : str) :
  (find text label = None → extract_field text label = None)
  ∧ (∀ p, label ≠ [] → find text label = Some p →
       let remaining := drop (p + length label) text in
       ∃ k, k ≤ length remaining
            ∧ (∀ m q, m ∈ field_markers → find remaining m = Some q → k ≤ q)
            ∧ (k = length remaining ∨ ∃ m, m ∈ field_markers ∧ find remaining m = Some k)
            ∧ extract_field text label = or_none (strip (take k remaining))).
Proof.
  split.
  - intros Hnone. unfold extract_field, extract_field_body, contains. rewrite Hnone.
    rewrite bool_decide_eq_false_2; [done|]. by intros [? ?].
  - intros p Hne Hfind remaining.
    destruct (nearest_marker_min remaining) as (Hle & Hmin & Hex).
    exists (nearest_marker remaining). split; [done|]. split; [done|]. split; [done|].
    unfold extract_field, extract_field_body, contains, split1. rewrite Hfind.
    rewrite bool_decide_eq_true_2 by eauto. by destruct label.
Qed.

(** C1 (as amended).  For a text [pre ++ label ++ value ++ nextlabel ++
    suffix] in which [label] is one of the five field labels and does not
    occur in [pre], [value] contains none of the field labels, and
    [nextlabel] is one of the four markers the extractor looks for
    (Тип:, Описание:, Начало:, Край:), [_extract_field(text, label)] returns
    [value.strip()], or [None] when that is empty.  In general the slice
    taken after the first occurrence of the label ends at the nearest
    occurrence of one of these four markers in the remainder, or at the end
    of the text. *)
Theorem extract_field_between_markers (pre label value nextlabel suffix : str) :
  (label ∈ field_labels →
   nextlabel ∈ field_markers →
   find pre label = None →
   Forall (λ l, find value l = None) field_labels →
   extract_field (pre ++ label ++ value ++ nextlabel ++ suffix) label
   = or_none (strip value))
  ∧ (∀ text p, label ≠ [] → find text label = Some p →
       let remaining := drop (p + length label) text in
       ∃ k, k ≤ length remaining
            ∧ (∀ m q, m ∈ field_markers → find remaining m = Some q → k ≤ q)
            ∧ (k = length remaining ∨ ∃ m, m ∈ field_markers ∧ find remaining m = Some k)
            ∧ extract_field text label = or_none (strip (take k remaining))).
Proof.
  split; [|intros text; apply extract_field_general].

  intros Hlabel Hnext Hpre Hvalue.
  destruct (field_labels_colon label Hlabel) as (bl & El & Hbl).
  assert (label ≠ []) as Hne by (rewrite El; by destruct bl).
  rewrite extract_field_first_occurrence; [|done|].
  - (* the slice ends where [nextlabel] starts *)
    assert (nearest_marker (value ++ nextlabel ++ suffix) = length value) as ->;
      [|by rewrite take_app_length].
    assert (∀ m a b, m ∈ field_markers → value ++ nextlabel ++ suffix = a ++ m ++ b →
                     length value ≤ length a) as Hfirst.
    { intros m a b Hm E.
      destruct (decide (length value ≤ length a)) as [|Hlt]; [done | exfalso].
      apply app_eq_inv in E as [(k & Ek & Er) | (k & Ek & Er)].
      2:{ apply Hlt. rewrite Ek, length_app. lia. }
      assert (k ≠ []) as Hk.
      { intros ->. apply Hlt. rewrite Ek, app_nil_r. lia. }
      pose proof (field_markers_labels _ Hm) as Hm'.
      pose proof (field_markers_labels _ Hnext) as Hnext'.
      destruct (field_labels_colon m Hm') as (bm & Em & Hbm).
      destruct (field_labels_colon nextlabel Hnext') as (bn & En & Hbn).
      rewrite Em, En in Er.
      apply label_no_straddle in Er as [(y & Ey) | Er]; [| | done | done].
      - rewrite Forall_forall in Hvalue. specialize (Hvalue m Hm').
        apply (proj1 (find_None_iff _ _) Hvalue a y).
        by rewrite Ek, Ey, <- Em.
      - rewrite <- Em, <- En in Er.
        by apply (field_labels_no_suffix m nextlabel k) in Er. }
    eapply (nearest_marker_at _ _ nextlabel); [done| |].
    + apply find_first_occurrence. intros a' b' E. by eapply Hfirst.
    + intros m' p Hm' Hp.
      destruct (find_Some_occurs _ _ _ Hp) as (b' & Eb' & Hle).
      specialize (Hfirst _ _ _ Hm' Eb'). rewrite length_take in Hfirst. lia.
  - (* the split is at the occurrence of [label] after [pre] *)
    apply find_first_occurrence. intros a' b' E.
    destruct (decide (length pre ≤ length a')) as [|Hlt]; [done | exfalso].
    apply app_eq_inv in E as [(k & Ek & Er) | (k & Ek & Er)].
    2:{ apply Hlt. rewrite Ek, length_app. lia. }
    assert (k ≠ []) as Hk.
    { intros ->. apply Hlt. rewrite Ek, app_nil_r. lia. }
    rewrite El in Er.
    apply label_no_straddle in Er as [(y & Ey) | Er]; [| | done | done].
    + apply (proj1 (find_None_iff _ _) Hpre a' y). by rewrite Ek, Ey, <- El.
    + rewrite <- El in Er.
      by apply (field_labels_no_suffix label label k) in Er.
Qed.

Lemma extract_field_between_markers_witness :
  extract_field
    (u "1. " ++ u "Местоположение:" ++ u " ул. Х " ++ u "Тип:" ++ u " авария")
    (u "Местоположение:")
  = or_none (strip (u " ул. Х ")).
Proof.
  apply (proj1 (extract_field_between_markers
                  (u "1. ") (u "Местоположение:") (u " ул. Х ") (u "Тип:") (u " авария"))).
  - apply (bool_decide_unpack _). vm_compute. exact I.
  - apply (bool_decide_unpack _). vm_compute. exact I.
  - vm_compute. reflexivity.
  - apply (bool_decide_unpack _). vm_compute. exact I.
Defined.

(** C1 as stated fails: after the label Тип:, the label Местоположение: does
    not end the value (it is not among the markers), and an empty value
    gives [None], not the empty string. *)
Lemma extract_field_location_is_no_marker :
  let label := u "Тип:" in
  let value := u " авария " in
  let nextlabel := u "Местоположение:" in
  let text := u "" ++ label ++ value ++ nextlabel ++ u " ул. Х" in
  label ∈ field_labels ∧ nextlabel ∈ field_labels ∧ nextlabel ≠ label
  ∧ Forall (λ l, find value l = None) field_labels
  ∧ extract_field text label = Some (u "авария Местоположение: ул. Х")
  ∧ extract_field text label ≠ Some (strip value)
  ∧ extract_field (u "Тип:" ++ u " " ++ u "Край:" ++ u "") (u "Тип:") = None
  ∧ strip (u " ") = [].
Proof.
  repeat split; try (apply (bool_decide_unpack _); vm_compute; exact I);
    try (vm_compute; reflexivity); vm_compute; discriminate.
Qed.

(** ** De-duplication *)

Lemma dedup_loop_spec (stops : list stop) (seen : gset dedup_key) (acc : list stop) :
  Forall keyed stops →
  ∃ unique_stops,
    dedup_loop stops seen acc = Val (acc ++ unique_stops)
    ∧ sublist unique_stops stops
    ∧ NoDup (stop_key <$> unique_stops)
    ∧ (∀ s k, s ∈ unique_stops → stop_key s = Val k → k ∉ seen)
    ∧ (∀ s k, s ∈ stops → stop_key s = Val k →
         k ∈ seen ∨ ∃ s', s' ∈ unique_stops ∧ stop_key s' = Val k)
    ∧ (∀ s, s ∈ unique_stops →
         ∃ before after, stops = before ++ s :: after
                         ∧ stop_key s ∉ (stop_key <$> before)).
Proof.
  revert seen acc. induction stops as [|s stops IH]; intros seen acc Hkeyed.
  - exists []. simpl. rewrite app_nil_r. repeat split.
    + constructor.
    + constructor.
    + intros ? ? []%elem_of_nil.
    + intros ? ? []%elem_of_nil.
    + intros ? []%elem_of_nil.
  - apply Forall_cons in Hkeyed as [[k Hk] Hkeyed]. simpl. rewrite Hk. simpl.
    destruct (decide (k ∈ seen)) as [Hin | Hnotin].
    + rewrite bool_decide_eq_false_2 by tauto.
      destruct (IH seen acc Hkeyed) as (U & -> & Hsub & Hnd & Hfresh & Hcov & Hfirst).
      exists U. repeat split; [by constructor | done | done | |].
      * intros s' k' [-> | Hs']%elem_of_cons Hk'.
        -- left. congruence.
        -- by eapply Hcov.
      * intros s' Hs'. destruct (Hfirst s' Hs') as (b & a & -> & Hb).
        exists (s :: b), a. split; [done|].
        rewrite fmap_cons, not_elem_of_cons. split; [|done].
        intros E. destruct (stop_key s') as [k'|] eqn:Hk'; [|congruence].
        rewrite Hk in E. injection E as ->. by apply (Hfresh s' k Hs').
    + rewrite bool_decide_eq_true_2 by done.
      destruct (IH ({[k]} ∪ seen) (acc ++ [s]) Hkeyed)
        as (U & -> & Hsub & Hnd & Hfresh & Hcov & Hfirst).
      exists (s :: U). repeat split.
      * by rewrite <- (assoc_L (++)).
      * by constructor.
      * rewrite fmap_cons. apply NoDup_cons. split; [|done].
        rewrite Hk. intros (s' & Hk' & Hs')%list_elem_of_fmap.
        symmetry in Hk'. apply (Hfresh s' k Hs' Hk'). set_solver.
      * intros s' k' [-> | Hs']%elem_of_cons Hk'.
        -- congruence.
        -- specialize (Hfresh s' k' Hs' Hk'). set_solver.
      * intros s' k' [-> | Hs']%elem_of_cons Hk'.
        -- right. exists s. split; [by left | done].
        -- destruct (Hcov s' k' Hs' Hk') as [Hin | (s'' & Hs'' & Hk'')].
           ++ apply elem_of_union in Hin as [->%elem_of_singleton | Hin]; [|by left].
              right. exists s. split; [by left | done].
           ++ right. exists s''. split; [by right | done].
      * intros s' [-> | Hs']%elem_of_cons.
        -- exists [], stops. split; [done|]. simpl. apply not_elem_of_nil.
        -- destruct (Hfirst s' Hs') as (b & a & -> & Hb).
           exists (s :: b), a. split; [done|].
           rewrite fmap_cons, not_elem_of_cons. split; [|done].
           intros E. destruct (stop_key s') as [k'|] eqn:Hk'; [|congruence].
           rewrite Hk in E. injection E as ->.
           specialize (Hfresh s' k Hs' Hk'). set_solver.
Qed.

(** ** The fetchers *)

Lemma get_electricity_stops_hit (env : elec_env) (w : world) (cached : list stop) (t0 : Z) :
  cache (self w) = Some cached → cache_time (self w) = Some t0 →
  (e_now_check env - t0 < cache_duration)%Z →
  get_electricity_stops env w = (Val cached, w).
Proof.
  intros Hc Ht Hfresh. unfold get_electricity_stops. unfold_M.
  rewrite Hc, Ht. by rewrite bool_decide_eq_true_2.
Qed.

Lemma get_electricity_stops_miss (env : elec_env) (w : world) :
  ¬ electricity_fresh (e_now_check env) (self w) →
  get_electricity_stops env w = try_M (electricity_fetch env) (λ _, mret []) w.
Proof.
  intros Hstale. unfold get_electricity_stops, electricity_fresh in *.
  unfold mbind at 1 2. unfold M_bind, get_cache, get_cache_time.
  destruct (cache (self w)) as [c|]; [|done].
  destruct (cache_time (self w)) as [t0|]; [|done].
  case_bool_decide; [|done]. exfalso. apply Hstale. eauto.
Qed.

Lemma get_water_stops_hit (env : water_env) (w : world) (cached : list stop) (t0 : Z) :
  cache (self w) = Some cached → cached ≠ [] → cache_time (self w) = Some t0 →
  (w_now_check env - t0 < cache_duration)%Z →
  get_water_stops env w = (Val cached, w).
Proof.
  intros Hc Hne Ht Hfresh. unfold get_water_stops. unfold_M.
  rewrite Hc, Ht. destruct cached; [done|]. by rewrite bool_decide_eq_true_2.
Qed.

Lemma get_water_stops_miss (env : water_env) (w : world) :
  ¬ water_fresh (w_now_check env) (self w) →
  get_water_stops env w = try_M (water_fetch env) (λ _, mret []) w.
Proof.
  intros Hstale. unfold get_water_stops, water_fresh in *.
  unfold mbind at 1 2. unfold M_bind, get_cache, get_cache_time.
  destruct (cache (self w)) as [[|s c]|]; [done| |done].
  destruct (cache_time (self w)) as [t0|]; [|done].
  case_bool_decide; [|done]. exfalso. apply Hstale. by eauto 10.
Qed.

(** The loop over the municipalities never raises and leaves the service
    fields alone. *)
Lemma fetch_details_collects (env : elec_env) (k : nat) (ids : list muni)
    (stops : list stop) (w : world) :
  fetch_details env k ids stops w
  = (Val (stops ++ collected env k ids),
     World (self w) (calls w ++ ((λ m : muni, HttpPost m.1.1) <$> ids))).
Proof.
  revert k stops w. induction ids as [|m ids IH]; intros k stops w; simpl.
  - unfold_M. rewrite !app_nil_r. by destruct w.
  - unfold mbind at 1. unfold M_bind at 1. unfold try_M. unfold_M.
    destruct (e_details env k m) as [ss|e]; simpl; rewrite IH; simpl.
    + by rewrite <- !(assoc_L (++)).
    + by rewrite <- !(assoc_L (++)).
Qed.

Lemma collected_keyed (env : elec_env) (k : nat) (ids : list muni) :
  (∀ k m ss, e_details env k m = Val ss → Forall keyed ss) →
  Forall keyed (collected env k ids).
Proof.
  intros Hd. revert k. induction ids as [|m ids IH]; intros k; simpl; [constructor|].
  apply Forall_app. split; [|done].
  destruct (e_details env k m) eqn:E; [by eapply Hd | constructor].
Qed.



(** ** Cache policy *)

Lemma water_fetch_launches (env : water_env) (w : world) :
  ∃ rest, calls (water_fetch env w).2 = calls w ++ Browser "launch" :: rest.
Proof.
  unfold water_fetch. unfold_M. simpl.
  repeat (step_outcome; try (rewrite <- ?(assoc_L (++)); simpl; by eauto)).
Qed.

Lemma electricity_fetch_opens_session (env : elec_env) (w : world) :
  ∃ rest, calls (electricity_fetch env w).2 = calls w ++ HttpSession :: rest.
Proof.
  unfold electricity_fetch. unfold mbind at 1 2 3. unfold M_bind at 1 2 3.
  unfold call at 1 2. unfold lift at 1. simpl.
  destruct (e_session env); simpl; [|by eauto].
  destruct (e_list_page env); simpl; [|rewrite <- ?(assoc_L (++)); by eauto].
  destruct (e_municipality_ids env) as [ids|]; simpl;
    [|rewrite <- ?(assoc_L (++)); by eauto].
  destruct (negb (truthy ids)).
  - unfold_M. simpl. destruct (e_exit env); simpl; rewrite <- ?(assoc_L (++)); by eauto.
  - unfold mbind at 1. unfold M_bind at 1. rewrite fetch_details_collects. simpl.
    unfold_M. simpl.
    destruct (dedup_loop _ _ _); simpl; [destruct (e_exit env); simpl|];
      rewrite <- ?(assoc_L (++)); by eauto.
Qed.

Lemma try_M_calls {A} (body : M A) (handler : A) (w : world) :
  calls (try_M body (λ _, mret handler) w).2 = calls (body w).2.
Proof. unfold try_M, mret, M_ret. by destruct (body w) as [[?|?] ?]. Qed.





(** C3 (the water service departs from it).  Whatever the clock says, a
    call of [get_water_stops] that finds the empty list in the cache does
    not return it from the cache: it runs the fetch again and launches the
    browser. *)
Theorem water_cached_empty_list_is_refetched (env : water_env) (t0 : Z) (log : list event) :
  let w := World (Service (Some []) (Some t0)) log in
  get_water_stops env w = try_M (water_fetch env) (λ _, mret []) w
  ∧ ∃ rest, calls (get_water_stops env w).2 = log ++ Browser "launch" :: rest.
Proof.
  intros w.
  assert (get_water_stops env w = try_M (water_fetch env) (λ _, mret []) w) as E.
  { apply get_water_stops_miss. intros (c & t & Hc & Hne & _). simpl in Hc. congruence. }
  split; [done|]. rewrite E, try_M_calls. apply (water_fetch_launches env w).
Qed.

(** A water fetch that succeeds does store what it parsed, the empty list
    included. *)
Lemma water_fetch_stores (env : water_env) (w : world) (h : html) (stops : list stop) :
  ¬ water_fresh (w_now_check env) (self w) →
  w_launch env = Val () → w_goto env = Val () → w_settle env = Val () →
  w_settle2 env = Val () → w_content env = Val h → w_close env = Val () →
  parse_water_stops h = Val stops → w_exit env = Val () →
  ∃ w', get_water_stops env w = (Val stops, w')
        ∧ self w' = Service (Some stops) (Some (w_now_store env)).
Proof.
  intros Hstale H1 H2 H3 H4 H5 H6 H7 H8. rewrite get_water_stops_miss by done.
  unfold water_fetch. unfold_M. simpl. rewrite H1, H2, H3. simpl.
  destruct (w_splash env); simpl; destruct (w_expand env); simpl;
    rewrite H4, H5, H6, H7, H8; simpl; by eauto.
Qed.

(** The electricity service does serve a cached list, empty or not, within
    the 30 minutes, without touching the network. *)
Lemma electricity_cached_list_is_served (env : elec_env) (cached : list stop)
    (t0 : Z) (log : list event) :
  (e_now_check env - t0 < cache_duration)%Z →
  let w := World (Service (Some cached) (Some t0)) log in
  get_electricity_stops env w = (Val cached, w).
Proof. intros Hfresh w. by apply (get_electricity_stops_hit env w cached t0). Qed.

(** The first call of a fresh electricity service that finds no affected
    municipality stores the empty list. *)
Lemma electricity_empty_fetch_stores (env : elec_env) (w : world) :
  ¬ electricity_fresh (e_now_check env) (self w) →
  e_session env = Val () → e_list_page env = Val () →
  e_municipality_ids env = Val [] → e_exit env = Val () →
  ∃ w', get_electricity_stops env w = (Val [], w')
        ∧ self w' = Service (Some []) (Some (e_now_store env)).
Proof.
  intros Hstale H1 H2 H3 H4. rewrite get_electricity_stops_miss by done.
  unfold electricity_fetch. unfold_M. simpl. rewrite H1, H2, H3. simpl.
  rewrite H4. simpl. by eauto.
Qed.



(** ** Chunks *)

Lemma chunk_loop_nonempty entry banner stops ms chunk_msg :
  chunk_msg ≠ [] → (∀ ms', banner ms' ≠ []) →
  (chunk_loop entry banner stops ms chunk_msg).2 ≠ [].
Proof.
  intros Hc Hb. revert ms chunk_msg Hc.
  induction stops as [|[i s] stops IH]; intros ms chunk_msg Hc; simpl; [done|].
  destruct (1900 <? _); apply IH.
  - intros [E _]%app_eq_nil. by eapply Hb.
  - by intros [E _]%app_eq_nil.
Qed.

Lemma chunk_loop_layout entry banner stops ms h es0 :
  bounded (h, es0) →
  ∃ es cs,
    (chunk_loop entry banner stops ms (h ++ concat es0)).1
      ++ [(chunk_loop entry banner stops ms (h ++ concat es0)).2]
    = ms ++ (render <$> ((h, es0 ++ es) :: cs))
    ∧ es ++ concat (snd <$> cs) = uncurry entry <$> stops
    ∧ Forall (λ c, ∃ ms', c.1 = banner ms') cs
    ∧ Forall bounded ((h, es0 ++ es) :: cs)
    ∧ (length (h ++ concat es0) ≤ 1900 →
       1900 < length (h ++ concat es0) + length (concat (uncurry entry <$> stops)) →
       cs ≠ []).
Proof.
  revert ms h es0. induction stops as [|[i s] stops IH]; intros ms h es0 Hb; simpl.
  - exists [], []. rewrite app_nil_r.
    split; [done|]. split; [done|]. split; [done|]. split; [by constructor|].
    intros. lia.
  - destruct (1900 <? length (h ++ concat es0) + length (entry i s)) eqn:Hover.
    + apply Nat.ltb_lt in Hover.
      set (ms1 := ms ++ [h ++ concat es0]).
      destruct (IH ms1 (banner ms1) [entry i s]) as (es' & cs' & E & Hes & Hhd & Hbd & _).
      { right. done. }
      simpl in E. rewrite app_nil_r in E.
      exists [], ((banner ms1, [entry i s] ++ es') :: cs'). subst ms1.
      split; [|split; [|split; [|split]]].
      * refine (eq_trans E _). rewrite app_nil_r, <- (assoc_L (++)). done.
      * simpl. f_equal. exact Hes.
      * constructor; [by eexists | done].
      * constructor; [by rewrite app_nil_r | done].
      * done.
    + apply Nat.ltb_ge in Hover.
      assert ((h ++ concat es0) ++ entry i s = h ++ concat (es0 ++ [entry i s])) as Echunk.
      { rewrite concat_app. simpl. by rewrite app_nil_r, (assoc_L (++)). }
      rewrite Echunk.
      destruct (IH ms h (es0 ++ [entry i s])) as (es' & cs' & E & Hes & Hhd & Hbd & Hcount).
      { left. unfold render. simpl. rewrite <- Echunk, length_app. lia. }
      exists (entry i s :: es'), cs'.
      rewrite <- (assoc_L (++)) in E, Hbd. simpl in E, Hbd.
      split; [|split; [|split; [|split]]].
      * done.
      * simpl. f_equal. exact Hes.
      * done.
      * done.
      * intros Hle Hgt. apply Hcount.
        -- rewrite <- Echunk, length_app. lia.
        -- rewrite <- Echunk. rewrite !length_app in *.
           change (list_fmap _ _ (uncurry entry) stops)
             with (uncurry entry <$> stops) in Hgt.
           lia.
Qed.

Lemma fold_left_entries (single : nat → stop → str) (l : list (nat * stop)) (init : str) :
  fold_left (λ msg '(i, s), msg ++ single i s) l init
  = init ++ concat (uncurry single <$> l).
Proof.
  revert init. induction l as [|[i s] l IH]; intros init; simpl.
  - by rewrite app_nil_r.
  - by rewrite IH, <- (assoc_L (++)).
Qed.

Lemma section_spec single entry counted part1 banner stops ms :
  part1 ≠ [] → length part1 ≤ 1900 → (∀ ms', banner ms' ≠ []) →
  ∃ cs, section single entry counted part1 banner stops ms = ms ++ (render <$> cs)
        ∧ section_layout single entry counted part1 banner stops cs.
Proof.
  intros Hp1 Hlen Hb. unfold section, section_layout.
  destruct stops as [|s0 stops]; simpl truthy; cbv iota.
  { exists []. by rewrite app_nil_r. }
  rewrite fold_left_entries.
  destruct (1900 <? _).
  2:{ exists [(counted, uncurry single <$> enumerate 1 (s0 :: stops))]. split; reflexivity. }
  unfold split_layout. remember (enumerate 1 (s0 :: stops)) as l eqn:El. clear El.
  pose proof (chunk_loop_nonempty entry banner l ms part1 Hp1 Hb) as Hne.
  destruct (chunk_loop_layout entry banner l ms part1 [])
    as (es & cs & E & Hes & Hhd & Hbd & Hcount).
  { left. unfold render. simpl. by rewrite app_nil_r. }
  simpl concat in E, Hcount. rewrite app_nil_r in E, Hcount.
  change ([] ++ es) with es in E, Hbd.
  destruct (chunk_loop entry banner l ms part1) as [ms' cm].
  cbn [fst snd] in E, Hne. destruct cm as [|c cm]; [done|]. simpl truthy. cbv iota.
  exists ((part1, es) :: cs). split; [exact E|].
  exists es, cs. split; [done|]. split; [exact Hes|]. split; [done|]. split; [done|].
  intros Hgt. by apply Hcount.
Qed.

Lemma with_footer_snoc (ms : list str) (m footer : str) :
  with_footer (ms ++ [m]) footer = ms ++ [m ++ footer].
Proof.
  unfold with_footer. rewrite length_app. simpl.
  replace (length ms + 1 - 1) with (length ms + 0) by lia.
  by rewrite alter_app_r.
Qed.

Lemma with_footer_length (ms : list str) (footer : str) :
  length (with_footer ms footer) = length ms.
Proof. apply length_alter. Qed.

Lemma choice_in {A} (pool : list A) (rnd : nat) :
  pool ≠ [] → ∃ a, choice pool rnd = Val a ∧ a ∈ pool.
Proof.
  intros Hne. unfold choice, index. destruct pool as [|a0 pool]; [done|].
  assert (rnd mod length (a0 :: pool) < length (a0 :: pool)) as Hlt.
  { apply Nat.mod_upper_bound. simpl. lia. }
  apply lookup_lt_is_Some in Hlt as [a Ha]. rewrite Ha.
  exists a. split; [done|]. by eapply list_elem_of_lookup_2.
Qed.

(** The end of the formatters never raises: the footer pool is not empty
    and both indexings are guarded. *)
Lemma finish_spec (footers : list str) (ms : list str) (rnd : nat) :
  footers ≠ [] →
  ∃ footer, footer ∈ footers
            ∧ finish footers ms rnd = Val (shape (with_footer ms footer)).
Proof.
  intros Hne. destruct (choice_in footers rnd Hne) as (footer & Hch & Hin).
  exists footer. split; [done|]. unfold finish.
  destruct ms as [|m0 ms]; [done|]. simpl truthy. cbv iota.
  rewrite Hch. cbn [mbind res_bind]. unfold append_to_last.
  change (alter _ (length (m0 :: ms) - 1) (m0 :: ms)) with (with_footer (m0 :: ms) footer).
  pose proof (with_footer_length (m0 :: ms) footer) as Hlen.
  destruct (with_footer (m0 :: ms) footer) as [|m1 [|m2 ms']]; simpl in *; [lia | done | done].
Qed.

(** ** Headings *)


Lemma other_heading_nonempty (header h : str) : other_heading header h → h ≠ [].
Proof. by intros (a & b & c & r & -> & _). Qed.

Lemma water_header_length : 3 ≤ length Water.header.
Proof. apply Nat.leb_le. by vm_compute. Qed.

Lemma electricity_header_length : 3 ≤ length Electricity.header.
Proof. apply Nat.leb_le. by vm_compute. Qed.

Lemma water_current_part_other (n : nat) : other_heading Water.header (Water.current_part n).
Proof.
  unfold Water.current_part. eval_head_literal.
  do 4 eexists. split; [reflexivity | by vm_compute].
Qed.

Lemma water_planned_part_other (n : nat) : other_heading Water.header (Water.planned_part n).
Proof.
  unfold Water.planned_part. eval_head_literal.
  do 4 eexists. split; [reflexivity | by vm_compute].
Qed.

Lemma water_planned_counted_other (n : nat) :
  other_heading Water.header (Water.planned_counted n).
Proof.
  unfold Water.planned_counted. eval_head_literal.
  do 4 eexists. split; [reflexivity | by vm_compute].
Qed.

Lemma electricity_unplanned_part_other (n : nat) :
  other_heading Electricity.header (Electricity.unplanned_part n).
Proof.
  unfold Electricity.unplanned_part. eval_head_literal.
  do 4 eexists. split; [reflexivity | by vm_compute].
Qed.

Lemma electricity_planned_part_other (n : nat) :
  other_heading Electricity.header (Electricity.planned_part n).
Proof.
  unfold Electricity.planned_part. eval_head_literal.
  do 4 eexists. split; [reflexivity | by vm_compute].
Qed.


Lemma header_app_nonempty (header x : str) : 3 ≤ length header → header ++ x ≠ [].
Proof. destruct header; simpl; [lia | done]. Qed.

Lemma water_part1_length :
  length (Water.header ++ Water.current_part 1) ≤ 1900
  ∧ length (Water.planned_part 1) ≤ 1900.
Proof. split; apply Nat.leb_le; by vm_compute. Qed.

Lemma electricity_part1_length :
  length (Electricity.header ++ Electricity.unplanned_part 1) ≤ 1900
  ∧ length (Electricity.planned_part 1) ≤ 1900.
Proof. split; apply Nat.leb_le; by vm_compute. Qed.

(** ** The two formatters, section by section *)

Lemma water_footers_nonempty : Water.footers ≠ [].
Proof. done. Qed.

Lemma electricity_footers_nonempty : Electricity.footers ≠ [].
Proof. done. Qed.

(** The water formatter returns the chunks of its two sections, the footer
    appended to the last one. *)
Lemma water_format_spec (stops : list stop) (rnd : nat) :
  ∃ cs1 cs2 footer,
    footer ∈ Water.footers
    ∧ water_current_layout (water_current stops) cs1
    ∧ water_planned_layout (water_planned stops) cs2
    ∧ Water.format_water_stops_message stops rnd
      = Val (shape (with_footer (render <$> (cs1 ++ cs2)) footer)).
Proof.
  unfold Water.format_water_stops_message.
  destruct stops as [|s0 stops].
  { exists [], [], (nl ++ u "_Do fill your kettle beforehand._").
    split; [by left|]. by repeat split. }
  simpl truthy. cbv iota zeta.
  fold (water_current (s0 :: stops)). fold (water_planned (s0 :: stops)).
  destruct water_part1_length as [Hl1 Hl2].
  edestruct (section_spec Water.current_entry Water.current_entry) as (cs1 & -> & Hcs1).
  { apply (header_app_nonempty _ _ water_header_length). }
  { exact Hl1. }
  { intros ms'. apply (other_heading_nonempty Water.header), water_current_part_other. }
  edestruct (section_spec Water.planned_entry Water.planned_entry) as (cs2 & -> & Hcs2).
  { apply (other_heading_nonempty Water.header), water_planned_part_other. }
  { exact Hl2. }
  { intros ms'. apply (other_heading_nonempty Water.header), water_planned_part_other. }
  rewrite app_nil_l.
  destruct (finish_spec Water.footers ((render <$> cs1) ++ (render <$> cs2)) rnd
              water_footers_nonempty) as (footer & Hin & E).
  exists cs1, cs2, footer. rewrite fmap_app.
  split; [done|]. split; [exact Hcs1|]. split; [exact Hcs2|]. exact E.
Qed.

(** So does the electricity formatter. *)
Lemma electricity_format_spec (upper : str → str) (stops : list stop) (rnd : nat) :
  ∃ cs1 cs2 footer,
    footer ∈ Electricity.footers
    ∧ electricity_unplanned_layout upper (electricity_unplanned stops) cs1
    ∧ electricity_planned_layout upper (electricity_planned stops) cs2
    ∧ Electricity.format_electricity_stops_message upper stops rnd
      = Val (shape (with_footer (render <$> (cs1 ++ cs2)) footer)).
Proof.
  unfold Electricity.format_electricity_stops_message.
  destruct stops as [|s0 stops].
  { exists [], [], (nl ++ u "_Do charge your devices beforehand._").
    split; [by left|]. by repeat split. }
  simpl truthy. cbv iota zeta.
  fold (electricity_unplanned (s0 :: stops)). fold (electricity_planned (s0 :: stops)).
  destruct electricity_part1_length as [Hl1 Hl2].
  destruct (section_spec (Electricity.single_entry upper) Electricity.entry
              (Electricity.header
               ++ Electricity.unplanned_counted (length (electricity_unplanned (s0 :: stops))))
              (Electricity.header ++ Electricity.unplanned_part 1)
              (λ messages, Electricity.unplanned_part (length messages + 1))
              (electricity_unplanned (s0 :: stops)) [])
    as (cs1 & -> & Hcs1).
  { apply (header_app_nonempty _ _ electricity_header_length). }
  { exact Hl1. }
  { intros ms'. apply (other_heading_nonempty Electricity.header),
      electricity_unplanned_part_other. }
  edestruct (section_spec (Electricity.single_entry upper) Electricity.entry)
    as (cs2 & -> & Hcs2).
  { apply (other_heading_nonempty Electricity.header), electricity_planned_part_other. }
  { exact Hl2. }
  { intros ms'. apply (other_heading_nonempty Electricity.header),
      electricity_planned_part_other. }
  rewrite app_nil_l.
  destruct (finish_spec Electricity.footers ((render <$> cs1) ++ (render <$> cs2)) rnd
              electricity_footers_nonempty) as (footer & Hin & E).
  exists cs1, cs2, footer. rewrite fmap_app.
  split; [done|]. split; [exact Hcs1|]. split; [exact Hcs2|]. exact E.
Qed.

Section layout_facts.

Context (single entry : nat → stop → str) (counted part1 : str)
        (banner : list str → str) (g : list stop) (cs : list (str * list str)).
Hypothesis Hlayout : section_layout single entry counted part1 banner g cs.

Lemma section_layout_nil : g = [] → cs = [].
Proof using Hlayout. intros ->. exact Hlayout. Qed.

Lemma section_layout_cons : g ≠ [] → cs ≠ [].
Proof using Hlayout.
  intros Hg. unfold section_layout in Hlayout. destruct g as [|s0 g']; [done|].
  destruct (1900 <? _).
  - destruct Hlayout as (es & cs' & -> & _). done.
  - by rewrite Hlayout.
Qed.

Lemma section_layout_entries : concat (snd <$> cs) = section_entries single entry counted g.
Proof using Hlayout.
  unfold section_layout, section_entries in *. destruct g as [|s0 g'].
  - rewrite Hlayout. by destruct (1900 <? _).
  - destruct (1900 <? _).
    + by destruct Hlayout as (es & cs' & _ & Hes & _).
    + rewrite Hlayout. simpl. by rewrite app_nil_r.
Qed.

Lemma section_layout_bounded : Forall bounded cs.
Proof using Hlayout.
  unfold section_layout in Hlayout. destruct g as [|s0 g'].
  - rewrite Hlayout. constructor.
  - destruct (1900 <? _) eqn:Hover.
    + by destruct Hlayout as (es & cs' & _ & _ & _ & Hbd & _).
    + rewrite Hlayout. constructor; [|constructor].
      left. by apply Nat.ltb_ge in Hover.
Qed.

(** The first chunk of a section is headed by the counted banner or by the
    banner of part 1, the following ones by continuation banners. *)
Lemma section_layout_headings :
  g ≠ [] →
  ∃ c cs', cs = c :: cs' ∧ (c.1 = counted ∨ c.1 = part1)
           ∧ Forall (λ c, ∃ ms, c.1 = banner ms) cs'.
Proof using Hlayout.
  intros Hg. unfold section_layout in Hlayout. destruct g as [|s0 g']; [done|].
  destruct (1900 <? _).
  - destruct Hlayout as (es & cs' & -> & _ & Hhd & _).
    exists (part1, es), cs'. split; [done|]. split; [by right | done].
  - rewrite Hlayout. eexists _, []. split; [done|]. split; [by left | constructor].
Qed.

(** A section whose entries are longer than 1900 in total has two chunks or
    more. *)
Lemma section_layout_two :
  (∀ i s, length (entry i s) ≤ length (single i s)) →
  1900 < length (concat (uncurry entry <$> enumerate 1 g)) →
  2 ≤ length cs.
Proof using Hlayout.
  intros Hle Hgt. unfold section_layout in Hlayout. destruct g as [|s0 g'].
  { simpl in Hgt. lia. }
  assert (length (concat (uncurry entry <$> enumerate 1 (s0 :: g')))
          ≤ length (concat (uncurry single <$> enumerate 1 (s0 :: g')))) as Hsum.
  { generalize (enumerate 1 (s0 :: g')). intros l.
    induction l as [|[i s] l IH]; [done|].
    rewrite !fmap_cons. simpl concat. rewrite !length_app.
    specialize (Hle i s). simpl. lia. }
  destruct (1900 <? _) eqn:Hover.
  - destruct Hlayout as (es & cs' & -> & _ & _ & _ & Hcount).
    destruct cs'; [|simpl; lia]. exfalso. apply Hcount; [lia | done].
  - apply Nat.ltb_ge in Hover. rewrite length_app in Hover. lia.
Qed.

End layout_facts.

Lemma section_entries_same (entry : nat → stop → str) (counted : str) (g : list stop) :
  section_entries entry entry counted g = uncurry entry <$> enumerate 1 g.
Proof. unfold section_entries. by destruct (1900 <? _). Qed.

Lemma shape_many (ms : list str) : 2 ≤ length ms → shape ms = MList ms.
Proof. destruct ms as [|m1 [|m2 ms]]; simpl; by try lia. Qed.

Lemma electricity_entry_shorter (upper : str → str) (i : nat) (s : stop) :
  length (Electricity.entry i s) ≤ length (Electricity.single_entry upper i s).
Proof.
  unfold Electricity.entry, Electricity.single_entry, Electricity.loc_str.
  cbv zeta. rewrite !length_app.
  destruct (truthy _ && _); destruct (truthy (get_or s "region" []));
    rewrite ?length_app; lia.
Qed.

Section two_sections.

Context (single1 entry1 : nat → stop → str) (counted1 part1 : str) (banner1 : list str → str)
        (single2 entry2 : nat → stop → str) (counted2 part2 : str) (banner2 : list str → str)
        (g1 g2 : list stop) (cs1 cs2 : list (str * list str)).
Hypothesis Hlayout1 : section_layout single1 entry1 counted1 part1 banner1 g1 cs1.
Hypothesis Hlayout2 : section_layout single2 entry2 counted2 part2 banner2 g2 cs2.

Lemma two_sections_entries :
  concat (snd <$> (cs1 ++ cs2))
  = section_entries single1 entry1 counted1 g1 ++ section_entries single2 entry2 counted2 g2.
Proof using Hlayout1 Hlayout2.
  rewrite fmap_app, concat_app.
  by rewrite (section_layout_entries _ _ _ _ _ _ _ Hlayout1),
             (section_layout_entries _ _ _ _ _ _ _ Hlayout2).
Qed.

Lemma two_sections_bounded : Forall bounded (cs1 ++ cs2).
Proof using Hlayout1 Hlayout2.
  apply Forall_app. split; by eapply section_layout_bounded.
Qed.

Lemma two_sections_long :
  (∀ i s, length (entry1 i s) ≤ length (single1 i s)) →
  (∀ i s, length (entry2 i s) ≤ length (single2 i s)) →
  1900 < length (concat ((uncurry entry1 <$> enumerate 1 g1)
                         ++ (uncurry entry2 <$> enumerate 1 g2))) →
  2 ≤ length (cs1 ++ cs2).
Proof using Hlayout1 Hlayout2.
  intros Hle1 Hle2 Hgt. rewrite concat_app, length_app in Hgt. rewrite length_app.
  destruct (decide (1900 < length (concat (uncurry entry1 <$> enumerate 1 g1)))) as [H1|H1].
  { pose proof (section_layout_two _ _ _ _ _ _ _ Hlayout1 Hle1 H1). lia. }
  destruct (decide (1900 < length (concat (uncurry entry2 <$> enumerate 1 g2)))) as [H2|H2].
  { pose proof (section_layout_two _ _ _ _ _ _ _ Hlayout2 Hle2 H2). lia. }
  assert (g1 ≠ []) as Hg1 by (intros ->; simpl in *; lia).
  assert (g2 ≠ []) as Hg2 by (intros ->; simpl in *; lia).
  pose proof (section_layout_cons _ _ _ _ _ _ _ Hlayout1 Hg1).
  pose proof (section_layout_cons _ _ _ _ _ _ _ Hlayout2 Hg2).
  destruct cs1, cs2; simpl; try done; lia.
Qed.

(** Every chunk is headed by one of the section's banners. *)
Lemma two_sections_headings :
  Forall (λ c, c.1 = counted1 ∨ c.1 = part1 ∨ (∃ ms, c.1 = banner1 ms)
               ∨ c.1 = counted2 ∨ c.1 = part2 ∨ (∃ ms, c.1 = banner2 ms)) (cs1 ++ cs2).
Proof using Hlayout1 Hlayout2.
  apply Forall_app. split.
  - destruct (decide (g1 = [])) as [Hg|Hg].
    { rewrite (section_layout_nil _ _ _ _ _ _ _ Hlayout1 Hg). constructor. }
    destruct (section_layout_headings _ _ _ _ _ _ _ Hlayout1 Hg) as (c & cs' & -> & Hc & Hcs').
    constructor; [tauto|]. eapply Forall_impl; [exact Hcs'|]. simpl. tauto.
  - destruct (decide (g2 = [])) as [Hg|Hg].
    { rewrite (section_layout_nil _ _ _ _ _ _ _ Hlayout2 Hg). constructor. }
    destruct (section_layout_headings _ _ _ _ _ _ _ Hlayout2 Hg) as (c & cs' & -> & Hc & Hcs').
    constructor; [tauto|]. eapply Forall_impl; [exact Hcs'|]. simpl. tauto.
Qed.

End two_sections.

Lemma water_headings (g1 g2 : list stop) (cs1 cs2 : list (str * list str)) :
  water_current_layout g1 cs1 → water_planned_layout g2 cs2 →
  Forall (λ c, water_heading c.1) (cs1 ++ cs2).
Proof.
  intros H1 H2. eapply Forall_impl; [exact (two_sections_headings _ _ _ _ _ _ _ _ _ _ _ _ _ _ H1 H2)|].
  intros c Hc. unfold water_heading. cbv beta in Hc.
  destruct Hc as [Hc|[Hc|[[ms Hc]|[Hc|[Hc|[ms Hc]]]]]]; rewrite Hc.
  - left. eexists. reflexivity.
  - right. left. reflexivity.
  - right. right. left. eexists. reflexivity.
  - right. right. right. left. eexists. reflexivity.
  - right. right. right. right. exists 1. reflexivity.
  - right. right. right. right. eexists. reflexivity.
Qed.

Lemma electricity_headings (upper : str → str) (g1 g2 : list stop)
    (cs1 cs2 : list (str * list str)) :
  electricity_unplanned_layout upper g1 cs1 → electricity_planned_layout upper g2 cs2 →
  Forall (λ c, electricity_heading c.1) (cs1 ++ cs2).
Proof.
  intros H1 H2. eapply Forall_impl; [exact (two_sections_headings _ _ _ _ _ _ _ _ _ _ _ _ _ _ H1 H2)|].
  intros c Hc. unfold electricity_heading. cbv beta in Hc.
  destruct Hc as [Hc|[Hc|[[ms Hc]|[Hc|[Hc|[ms Hc]]]]]]; rewrite Hc.
  - left. eexists. reflexivity.
  - right. left. reflexivity.
  - right. right. left. eexists. reflexivity.
  - right. right. right. left. eexists. reflexivity.
  - right. right. right. right. exists 1. reflexivity.
  - right. right. right. right. eexists. reflexivity.
Qed.

(** C2 (as amended).  When the entries of the records of the formatter's two
    categories, as the splitting loop renders them, are longer than 1900
    characters in total, the formatter returns a list of two chunks or more;
    each chunk is a heading followed by entries, the footer after the last
    one; before the footer is added, every chunk is at most 1900 characters
    long, heading included, or consists of a single entry; and the entries
    of the chunks, in order, are the entries of the first category and then
    those of the second, each once and in input order (for electricity,
    each section in the rendering of the path it took). *)
Theorem format_splits_long_lists (upper : str → str) (stops : list stop) (rnd : nat) :
  (1900 < length (concat
             ((uncurry Water.current_entry <$> enumerate 1 (water_current stops))
              ++ (uncurry Water.planned_entry <$> enumerate 1 (water_planned stops)))) →
   ∃ cs footer,
     footer ∈ Water.footers
     ∧ Water.format_water_stops_message stops rnd
       = Val (MList (with_footer (render <$> cs) footer))
     ∧ 2 ≤ length cs
     ∧ Forall (λ c, water_heading c.1) cs
     ∧ Forall bounded cs
     ∧ concat (snd <$> cs)
       = (uncurry Water.current_entry <$> enumerate 1 (water_current stops))
         ++ (uncurry Water.planned_entry <$> enumerate 1 (water_planned stops)))
  ∧ (1900 < length (concat
               ((uncurry Electricity.entry <$> enumerate 1 (electricity_unplanned stops))
                ++ (uncurry Electricity.entry <$> enumerate 1 (electricity_planned stops)))) →
     ∃ cs footer,
       footer ∈ Electricity.footers
       ∧ Electricity.format_electricity_stops_message upper stops rnd
         = Val (MList (with_footer (render <$> cs) footer))
       ∧ 2 ≤ length cs
       ∧ Forall (λ c, electricity_heading c.1) cs
       ∧ Forall bounded cs
       ∧ concat (snd <$> cs)
         = section_entries (Electricity.single_entry upper) Electricity.entry
             (Electricity.header
              ++ Electricity.unplanned_counted (length (electricity_unplanned stops)))
             (electricity_unplanned stops)
           ++ section_entries (Electricity.single_entry upper) Electricity.entry
                (Electricity.planned_counted (length (electricity_planned stops)))
                (electricity_planned stops)).
Proof.
  split.
  - intros Hgt.
    destruct (water_format_spec stops rnd) as (cs1 & cs2 & footer & Hin & H1 & H2 & E).
    pose proof (two_sections_long _ _ _ _ _ _ _ _ _ _ _ _ _ _ H1 H2
                  (λ _ _, le_n _) (λ _ _, le_n _) Hgt) as Hlen.
    exists (cs1 ++ cs2), footer. split; [done|]. split.
    { rewrite E. f_equal. apply shape_many. by rewrite with_footer_length, length_fmap. }
    split; [done|]. split; [by eapply water_headings|].
    split; [exact (two_sections_bounded _ _ _ _ _ _ _ _ _ _ _ _ _ _ H1 H2)|].
    rewrite (two_sections_entries _ _ _ _ _ _ _ _ _ _ _ _ _ _ H1 H2).
    by rewrite !section_entries_same.
  - intros Hgt.
    destruct (electricity_format_spec upper stops rnd)
      as (cs1 & cs2 & footer & Hin & H1 & H2 & E).
    pose proof (two_sections_long _ _ _ _ _ _ _ _ _ _ _ _ _ _ H1 H2
                  (electricity_entry_shorter upper) (electricity_entry_shorter upper) Hgt)
      as Hlen.
    exists (cs1 ++ cs2), footer. split; [done|]. split.
    { rewrite E. f_equal. apply shape_many. by rewrite with_footer_length, length_fmap. }
    split; [done|]. split; [by eapply electricity_headings|].
    split; [exact (two_sections_bounded _ _ _ _ _ _ _ _ _ _ _ _ _ _ H1 H2)|].
    exact (two_sections_entries _ _ _ _ _ _ _ _ _ _ _ _ _ _ H1 H2).
Qed.

Lemma format_splits_long_lists_witness :
  let stops := [long_start "current"; long_start "unplanned"] in
  (∃ cs footer,
     footer ∈ Water.footers
     ∧ Water.format_water_stops_message stops 0
       = Val (MList (with_footer (render <$> cs) footer))
     ∧ 2 ≤ length cs
     ∧ Forall (λ c, water_heading c.1) cs
     ∧ Forall bounded cs
     ∧ concat (snd <$> cs)
       = (uncurry Water.current_entry <$> enumerate 1 (water_current stops))
         ++ (uncurry Water.planned_entry <$> enumerate 1 (water_planned stops)))
  ∧ (∃ cs footer,
       footer ∈ Electricity.footers
       ∧ Electricity.format_electricity_stops_message Electricity.ascii_upper stops 0
         = Val (MList (with_footer (render <$> cs) footer))
       ∧ 2 ≤ length cs
       ∧ Forall (λ c, electricity_heading c.1) cs
       ∧ Forall bounded cs
       ∧ concat (snd <$> cs)
         = section_entries (Electricity.single_entry Electricity.ascii_upper)
             Electricity.entry
             (Electricity.header
              ++ Electricity.unplanned_counted (length (electricity_unplanned stops)))
             (electricity_unplanned stops)
           ++ section_entries (Electricity.single_entry Electricity.ascii_upper)
                Electricity.entry
                (Electricity.planned_counted (length (electricity_planned stops)))
                (electricity_planned stops)).
Proof.
  intros stops.
  destruct (format_splits_long_lists Electricity.ascii_upper stops 0) as [Hw He].
  split; [apply Hw | apply He]; apply Nat.ltb_lt; vm_compute; reflexivity.
Defined.

(** C2 as stated fails.  A record whose start text is 1900 characters long
    makes an entry that no chunk can hold within the limit: the second
    chunk is that entry after its banner.  Eight electricity records whose
    single-message entries (with municipality and region) add up to more
    than 1900 characters are returned as one string.  A record of a
    category the formatter does not know is not rendered at all. *)
Lemma format_chunk_over_limit :
  let footer := nl ++ u "_Do fill your kettle beforehand._" in
  let long := long_start "current" in
  let remotes := remote <$> seq 0 8 in
  1900 < length (Water.current_entry 1 long)
  ∧ Water.format_water_stops_message [long] 0
    = Val (MList [Water.header ++ Water.current_part 1;
                  Water.current_part 2 ++ Water.current_entry 1 long ++ footer])
  ∧ 1900 < length (concat (uncurry (Electricity.single_entry Electricity.ascii_upper)
                           <$> enumerate 1 remotes))
  ∧ (∃ m, Electricity.format_electricity_stops_message Electricity.ascii_upper remotes 0
          = Val (MStr m))
  ∧ Water.format_water_stops_message [long_start "unplanned"] 0 = Val MNone.
Proof.
  intros footer long remotes.
  split; [apply Nat.ltb_lt; vm_compute; reflexivity|].
  split; [vm_compute; reflexivity|].
  split; [apply Nat.ltb_lt; vm_compute; reflexivity|].
  split; [eexists; vm_compute; reflexivity|].
  vm_compute; reflexivity.
Qed.

(** ** Absent results *)

Lemma with_footer_nil (footer : str) : with_footer [] footer = [].
Proof. done. Qed.


Lemma with_footer_Forall (P : str → Prop) (ms : list str) (footer : str) :
  (∀ m, P m → P (m ++ footer)) → Forall P ms → Forall P (with_footer ms footer).
Proof.
  intros Hf Hall. destruct ms as [|m0 ms]; [done|].
  assert (m0 :: ms ≠ []) as Hne by done.
  destruct (exists_last Hne) as (init & x & E). rewrite E in *.
  rewrite with_footer_snoc. apply Forall_app in Hall as [Hinit Hx].
  apply Forall_app. split; [done|]. constructor; [|constructor].
  apply Hf. by inversion Hx.
Qed.

Lemma shape_nonblank (ms : list str) : Forall (λ s, s ≠ []) ms → nonblank (shape ms).
Proof.
  intros Hall. destruct ms as [|m1 [|m2 ms]]; simpl.
  - done.
  - by inversion Hall.
  - split; [lia | done].
Qed.

Lemma shape_none (ms : list str) : shape ms = MNone ↔ ms = [].
Proof. by destruct ms as [|m1 [|m2 ms]]. Qed.

Lemma water_heading_nonempty (h : str) : water_heading h → h ≠ [].
Proof.
  intros [[n ->]|[->|[[n ->]|[[n ->]|[n ->]]]]].
  - apply (header_app_nonempty _ _ water_header_length).
  - apply (header_app_nonempty _ _ water_header_length).
  - apply (other_heading_nonempty Water.header), water_current_part_other.
  - apply (other_heading_nonempty Water.header), water_planned_counted_other.
  - apply (other_heading_nonempty Water.header), water_planned_part_other.
Qed.


(** What both formatters return, given the chunks of the two sections. *)
Lemma returned_shape (heading : str → Prop) (g1 g2 : list stop)
    (cs1 cs2 : list (str * list str)) (footer : str) :
  (∀ h, heading h → h ≠ []) →
  Forall (λ c, heading c.1) (cs1 ++ cs2) →
  (g1 = [] ↔ cs1 = []) → (g2 = [] ↔ cs2 = []) →
  let m := shape (with_footer (render <$> (cs1 ++ cs2)) footer) in
  (m = MNone ↔ g1 = [] ∧ g2 = []) ∧ nonblank m.
Proof.
  intros Hne Hhd E1 E2 m. split.
  - unfold m. rewrite shape_none. rewrite E1, E2. split.
    + intros E. apply (f_equal length) in E.
      rewrite with_footer_length, length_fmap, length_app in E.
      destruct cs1, cs2; simpl in E; done.
    + by intros [-> ->].
  - apply shape_nonblank, with_footer_Forall.
    + intros s Hs [E _]%app_eq_nil. done.
    + apply Forall_fmap. eapply Forall_impl; [exact Hhd|].
      intros c Hc [E _]%app_eq_nil. by apply (Hne c.1).
Qed.

Lemma layout_empty_iff single entry counted part1 banner g cs :
  section_layout single entry counted part1 banner g cs → (g = [] ↔ cs = []).
Proof.
  intros H. split.
  - by eapply section_layout_nil.
  - intros ->. destruct (decide (g = [])) as [|Hg]; [done|].
    by destruct (section_layout_cons _ _ _ _ _ _ _ H Hg).
Qed.



(** ** No exception escapes *)



(** ** The header *)

Section header_first.

Context (header x1 p1 : str)
        (single1 entry1 : nat → stop → str) (banner1 : list str → str)
        (single2 entry2 : nat → stop → str) (counted2 part2 : str) (banner2 : list str → str)
        (g1 g2 : list stop) (cs1 cs2 : list (str * list str)).
Hypothesis Hheader : 3 ≤ length header.
Hypothesis Hlayout1 : section_layout single1 entry1 (header ++ x1) (header ++ p1) banner1 g1 cs1.
Hypothesis Hlayout2 : section_layout single2 entry2 counted2 part2 banner2 g2 cs2.
Hypothesis Hbanner1 : ∀ ms, other_heading header (banner1 ms).
Hypothesis Hcounted2 : other_heading header counted2.
Hypothesis Hpart2 : other_heading header part2.
Hypothesis Hbanner2 : ∀ ms, other_heading header (banner2 ms).



End header_first.




(** ** Order of the sections *)



(** ** The two renderings of an electricity entry *)







(** * Further properties of the code *)

(** ** [str.strip] and the extracted value *)

Lemma lstrip_decomp (s : str) :
  ∃ ws, s = ws ++ lstrip s ∧ Forall (λ c, is_space c = true) ws.
Proof.
  induction s as [|c s (ws & E & Hws)]; simpl.
  - by exists [].
  - destruct (is_space c) eqn:Hc.
    + exists (c :: ws). split; [simpl; by f_equal | by constructor].
    + by exists [].
Qed.

Lemma lstrip_head (s : str) (c : char) : head (lstrip s) = Some c → is_space c = false.
Proof.
  induction s as [|d s IH]; simpl; [done|].
  destruct (is_space d) eqn:Hd; [done|]. simpl. by intros [= <-].
Qed.

Lemma rstrip_decomp (s : str) :
  ∃ ws, s = rstrip s ++ ws ∧ Forall (λ c, is_space c = true) ws.
Proof.
  unfold rstrip. destruct (lstrip_decomp (rev s)) as (ws & E & Hws).
  exists (rev ws). split.
  - rewrite <- rev_app_distr, <- E. by rewrite rev_involutive.
  - apply Forall_forall. intros c Hc. rewrite Forall_forall in Hws.
    apply Hws. apply list_elem_of_In. apply in_rev. by apply list_elem_of_In.
Qed.

Lemma rstrip_last (s : str) (c : char) : last (rstrip s) = Some c → is_space c = false.
Proof.
  unfold rstrip. intros H. apply (lstrip_head (rev s)).
  destruct (lstrip (rev s)) as [|d t] eqn:E; [done|].
  simpl in H. rewrite last_snoc in H. by injection H as ->.
Qed.

Lemma strip_decomp (s : str) :
  ∃ a b, s = a ++ strip s ++ b
         ∧ Forall (λ c, is_space c = true) a ∧ Forall (λ c, is_space c = true) b.
Proof.
  unfold strip. destruct (lstrip_decomp s) as (a & Ea & Ha).
  destruct (rstrip_decomp (lstrip s)) as (b & Eb & Hb).
  exists a, b. split; [|done]. by rewrite <- Eb.
Qed.

Lemma strip_head (s : str) (c : char) : head (strip s) = Some c → is_space c = false.
Proof.
  unfold strip. intros H. apply (lstrip_head s).
  destruct (rstrip_decomp (lstrip s)) as (b & Eb & _). rewrite Eb.
  destruct (rstrip (lstrip s)); [done|]. exact H.
Qed.

Lemma strip_last (s : str) (c : char) : last (strip s) = Some c → is_space c = false.
Proof. apply rstrip_last. Qed.

(** A value that [_extract_field] returns is the trimmed slice that ends at
    the nearest marker. *)
Lemma extract_field_Some (text label v : str) :
  extract_field text label = Some v →
  ∃ p, label ≠ [] ∧ find text label = Some p
       ∧ v = strip (take (nearest_marker (drop (p + length label) text))
                      (drop (p + length label) text))
       ∧ v ≠ [].
Proof.
  intros H. destruct (find text label) as [p|] eqn:Hfind.
  2:{ by rewrite (proj1 (extract_field_general text label) Hfind) in H. }
  assert (label ≠ []) as Hne.
  { intros ->. unfold extract_field, extract_field_body, contains, split1 in H.
    rewrite Hfind in H. by rewrite bool_decide_eq_true_2 in H by eauto. }
  exists p. split; [done|]. split; [done|].
  unfold extract_field, extract_field_body, contains, split1 in H.
  rewrite Hfind in H. rewrite bool_decide_eq_true_2 in H by eauto.
  destruct label as [|c label]; [done|]. simpl in H.
  unfold or_none in H.
  destruct (strip _) as [|d t] eqn:E; [done|]. injection H as <-.
  by split.
Qed.

(** X1.  A value returned by [_extract_field] is never empty and neither
    begins nor ends with a white-space character. *)
Theorem extract_field_value_trimmed (text label v : str) :
  extract_field text label = Some v →
  v ≠ []
  ∧ (∀ c, head v = Some c → is_space c = false)
  ∧ (∀ c, last v = Some c → is_space c = false).
Proof.
  intros (p & _ & _ & -> & Hne)%extract_field_Some.
  split; [done|]. split; [apply strip_head | apply strip_last].
Qed.

Lemma extract_field_value_trimmed_witness :
  let text := u "Местоположение: ул. Х  Тип: авария" in
  let v := u "ул. Х" in
  v ≠ []
  ∧ (∀ c, head v = Some c → is_space c = false)
  ∧ (∀ c, last v = Some c → is_space c = false).
Proof.
  intros text v.
  apply (extract_field_value_trimmed text (u "Местоположение:") v).
  vm_compute. reflexivity.
Defined.

(** X2.  A value returned by [_extract_field] contains none of the four
    markers Тип:, Описание:, Начало:, Край:. *)
Theorem extract_field_value_has_no_marker (text label v : str) :
  extract_field text label = Some v →
  Forall (λ m, find v m = None) field_markers.
Proof.
  intros (p & _ & _ & -> & _)%extract_field_Some.
  set (remaining := drop (p + length label) text).
  apply Forall_forall. intros m Hm.
  apply find_None_iff. intros a b E.
  destruct (strip_decomp (take (nearest_marker remaining) remaining)) as (x & y & Es & _).
  rewrite E in Es.
  destruct (nearest_marker_min remaining) as (Hle & Hmin & _).
  assert (remaining = (x ++ a) ++ m ++ (b ++ y) ++ drop (nearest_marker remaining) remaining)
    as Er.
  { rewrite <- (take_drop (nearest_marker remaining) remaining) at 1.
    rewrite Es. by rewrite <- !(assoc_L (++)). }
  assert (length (x ++ a) + length m ≤ nearest_marker remaining) as Hin.
  { apply (f_equal length) in Es. rewrite length_take in Es.
    rewrite !length_app in Es. rewrite length_app. lia. }
  destruct (find remaining m) as [q|] eqn:Hq.
  - pose proof (find_Some_first _ _ _ _ _ Hq Er) as Hfirst.
    specialize (Hmin m q Hm Hq).
    destruct (field_labels_colon m (field_markers_labels m Hm)) as (bm & -> & _).
    rewrite !length_app in Hin. rewrite length_app in Hfirst. simpl in Hin. lia.
  - exact (proj1 (find_None_iff _ _) Hq _ _ Er).
Qed.

Lemma extract_field_value_has_no_marker_witness :
  Forall (λ m, find (u "ул. Х") m = None) field_markers.
Proof.
  apply (extract_field_value_has_no_marker
           (u "Местоположение: ул. Х  Тип: авария") (u "Местоположение:") (u "ул. Х")).
  vm_compute. reflexivity.
Defined.

(** X3.  A value returned by [_extract_field] stands in the text right
    after the first occurrence of the label, separated from it by white
    space only. *)
Theorem extract_field_value_follows_label (text label v : str) :
  extract_field text label = Some v →
  ∃ before ws rest,
    text = before ++ label ++ ws ++ v ++ rest
    ∧ find text label = Some (length before)
    ∧ Forall (λ c, is_space c = true) ws.
Proof.
  intros (p & Hne & Hfind & -> & _)%extract_field_Some.
  set (remaining := drop (p + length label) text).
  destruct (strip_decomp (take (nearest_marker remaining) remaining)) as (ws & y & Es & Hws & _).
  destruct (find_Some_occurs _ _ _ Hfind) as (b & Eb & Hp).
  exists (take p text), ws, (y ++ drop (nearest_marker remaining) remaining).
  split; [|split; [|done]].
  - assert (remaining = b) as Er.
    { unfold remaining. rewrite Eb at 1. rewrite <- drop_drop.
      rewrite drop_app_length'; [|by rewrite length_take; lia].
      by rewrite drop_app_length. }
    rewrite Eb at 1. do 2 f_equal. rewrite <- Er.
    rewrite <- (take_drop (nearest_marker remaining) remaining) at 1.
    rewrite Es at 1. by rewrite <- !(assoc_L (++)).
  - rewrite Hfind, length_take. f_equal. lia.
Qed.

Lemma extract_field_value_follows_label_witness :
  let text := u "Местоположение: ул. Х  Тип: авария" in
  ∃ before ws rest,
    text = before ++ u "Местоположение:" ++ ws ++ u "ул. Х" ++ rest
    ∧ find text (u "Местоположение:") = Some (length before)
    ∧ Forall (λ c, is_space c = true) ws.
Proof.
  intros text.
  apply (extract_field_value_follows_label text (u "Местоположение:") (u "ул. Х")).
  vm_compute. reflexivity.
Defined.

(** X4.  [_extract_field] returns [None], and does not raise, when the
    label does not occur in the text, and also for the empty label (whose
    [split] raises [ValueError] inside the function's own handler). *)
Theorem extract_field_absent_or_empty_label (text label : str) :
  (find text label = None → extract_field text label = None)
  ∧ extract_field text [] = None.
Proof.
  split; [apply extract_field_general|].
  unfold extract_field, extract_field_body, contains, split1.
  destruct (bool_decide _); done.
Qed.

Lemma extract_field_absent_or_empty_label_witness :
  let text := u "Тип: Авария Начало: 08:00" in
  extract_field text (u "Край:") = None ∧ extract_field text [] = None.
Proof.
  intros text.
  destruct (extract_field_absent_or_empty_label text (u "Край:")) as [H1 H2].
  split; [apply H1; vm_compute; reflexivity | exact H2].
Defined.

(** ** The water page parser *)

Lemma or_default_nonempty (dflt : str) (o : option str) :
  dflt ≠ [] → (∀ v, o = Some v → v ≠ []) → default dflt o ≠ [].
Proof. intros Hd Ho. destruct o as [v|]; simpl; [by apply Ho | done]. Qed.

Lemma extract_field_nonempty (text label v : str) :
  extract_field text label = Some v → v ≠ [].
Proof. by intros (p & _ & _ & _ & Hne)%extract_field_Some. Qed.

Lemma parse_row_records (category : str) (row : res (option str)) (s : stop) :
  s ∈ parse_row category row →
  s !! "category" = Some category
  ∧ (∃ v, s !! "location" = Some v ∧ v ≠ [])
  ∧ (∃ v, s !! "type" = Some v ∧ v ≠ [])
  ∧ is_Some (s !! "description")
  ∧ (∃ v, s !! "start" = Some v ∧ v ≠ [])
  ∧ (∃ v, s !! "end" = Some v ∧ v ≠ []).
Proof.
  unfold parse_row, try_except. destruct row as [[text|]|e]; simpl; try by intros []%elem_of_nil.
  destruct (_ || _); [|by intros []%elem_of_nil].
  intros ->%list_elem_of_singleton.
  assert (u "Location not specified" ≠ []) as H1 by (by vm_compute).
  assert (u "Unknown" ≠ []) as H2 by (by vm_compute).
  assert (u "Time not specified" ≠ []) as H3 by (by vm_compute).
  split; [by simplify_map_eq|].
  split; [eexists; split; [by simplify_map_eq|];
          apply or_default_nonempty; [done | apply extract_field_nonempty]|].
  split; [eexists; split; [by simplify_map_eq|];
          apply or_default_nonempty; [done | apply extract_field_nonempty]|].
  split; [eexists; by simplify_map_eq|].
  split; eexists; (split; [by simplify_map_eq|]);
    (apply or_default_nonempty; [done | apply extract_field_nonempty]).
Qed.

Lemma parse_section_records (soup : dom) (id : string) (category : str) (s : stop) :
  s ∈ parse_section soup id category →
  s !! "category" = Some category
  ∧ (∃ v, s !! "location" = Some v ∧ v ≠ [])
  ∧ (∃ v, s !! "type" = Some v ∧ v ≠ [])
  ∧ is_Some (s !! "description")
  ∧ (∃ v, s !! "start" = Some v ∧ v ≠ [])
  ∧ (∃ v, s !! "end" = Some v ∧ v ≠ []).
Proof.
  unfold parse_section. destruct (soup id) as [[rows|]|]; try by intros []%elem_of_nil.
  intros Hin. apply list_elem_of_In, in_concat in Hin as (l & Hl & Hs).
  apply in_map_iff in Hl as (row & <- & _).
  apply (parse_row_records category row). by apply list_elem_of_In.
Qed.

Lemma filter_all {A} (P : A → Prop) `{∀ x, Decision (P x)} (l : list A) :
  Forall P l → filter P l = l.
Proof.
  induction 1 as [|x l Hx Hl IH]; [done|].
  rewrite filter_cons_True by done. by rewrite IH.
Qed.

Lemma filter_none {A} (P : A → Prop) `{∀ x, Decision (P x)} (l : list A) :
  Forall (λ x, ¬ P x) l → filter P l = [].
Proof.
  induction 1 as [|x l Hx Hl IH]; [done|].
  by rewrite filter_cons_False.
Qed.

Lemma current_is_not_planned : u "current" ≠ u "planned".
Proof. by vm_compute. Qed.

(** X5.  Every record that [_parse_water_stops] returns has the six fields
    location, type, description, start, end and category, with location,
    type, start and end not empty, and its category is that of the section
    it was read in; the records of the current section come first, so the
    two groups the formatter makes of the list are exactly its two parts. *)
Theorem parse_water_stops_records (h : html) (stops : list stop) :
  parse_water_stops h = Val stops →
  Forall water_record stops
  ∧ water_current stops ++ water_planned stops = stops.
Proof.
  unfold parse_water_stops. destruct (lxml h) as [soup|e]; simpl; [|done].
  intros [= <-].
  set (cur := parse_section soup "infrastructureAlertsContent" (u "current")).
  set (pl := parse_section soup "sanitaryBackupContent" (u "planned")).
  assert (Forall (λ s : stop, s !! "category" = Some (u "current")) cur) as Hcur.
  { apply Forall_forall. intros s Hs. by apply parse_section_records in Hs as [? _]. }
  assert (Forall (λ s : stop, s !! "category" = Some (u "planned")) pl) as Hpl.
  { apply Forall_forall. intros s Hs. by apply parse_section_records in Hs as [? _]. }
  split.
  - apply Forall_app. split; apply Forall_forall; intros s Hs;
      apply parse_section_records in Hs as (Hc & ? & ? & ? & ? & ?);
      unfold water_record; rewrite Hc; by eauto 10.
  - unfold water_current, water_planned. rewrite !filter_app.
    rewrite (filter_all _ cur Hcur), (filter_all _ pl Hpl).
    rewrite (filter_none _ pl), (filter_none _ cur).
    + by rewrite app_nil_r.
    + eapply Forall_impl; [exact Hcur|]. intros s Hs Hs'. rewrite Hs in Hs'.
      injection Hs' as E. by apply current_is_not_planned.
    + eapply Forall_impl; [exact Hpl|]. intros s Hs Hs'. rewrite Hs in Hs'.
      injection Hs' as E. by apply current_is_not_planned.
Qed.

Lemma parse_water_stops_records_witness :
  let row := Val (Some (u "Местоположение: ул. Х Начало: 08:00")) in
  let h := Html (Val (λ id, if String.eqb id "sanitaryBackupContent"
                            then Some (Some [row]) else None)) in
  ∃ stops, parse_water_stops h = Val stops
           ∧ Forall water_record stops
           ∧ water_current stops ++ water_planned stops = stops.
Proof.
  intros row h. eexists. split; [reflexivity|].
  apply (parse_water_stops_records h). reflexivity.
Defined.

(** ** From the water page to the message *)

(** What the guarded body of [get_water_stops] leaves behind: the fields as
    they were and an exception, or the parsed list in the cache. *)
Lemma water_fetch_outcome (env : water_env) (w : world) :
  (∃ e w', water_fetch env w = (Exc e, w') ∧ self w' = self w)
  ∨ (∃ h stops r w',
       w_content env = Val h ∧ parse_water_stops h = Val stops
       ∧ water_fetch env w = (r, w')
       ∧ self w' = Service (Some stops) (Some (w_now_store env))
       ∧ (r = Val stops ∨ ∃ e, r = Exc e)).
Proof.
  unfold water_fetch. unfold_M. simpl.
  destruct (w_launch env); simpl; [|left; by eauto].
  destruct (w_goto env); simpl; [|left; by eauto].
  destruct (w_settle env); simpl; [|left; by eauto].
  destruct (w_splash env); simpl;
    (destruct (w_expand env); simpl;
     (destruct (w_settle2 env); simpl; [|left; by eauto];
      destruct (w_content env) as [h|]; simpl; [|left; by eauto];
      destruct (w_close env); simpl; [|left; by eauto];
      destruct (parse_water_stops h) as [stops|] eqn:Hparse; simpl; [|left; by eauto];
      right; exists h, stops;
      destruct (w_exit env); simpl; eexists _, _;
      (split; [done|]); (split; [done|]); (split; [done|]); (split; [done|]); by eauto)).
Qed.

Lemma water_fresh_or_not (now : Z) (s : service) :
  water_fresh now s ∨ ¬ water_fresh now s.
Proof.
  unfold water_fresh. destruct s as [[[|s0 c]|] [t|]]; simpl;
    try (right; intros (? & ? & ? & ? & ? & ?); congruence).
  destruct (decide (now - t < cache_duration)%Z) as [Hlt|Hge].
  - left. exists (s0 :: c), t. by repeat split.
  - right. intros (? & ? & ? & ? & [= <-] & ?). done.
Qed.


Lemma water_records_render (stops : list stop) (rnd : nat) :
  Forall water_record stops → stops ≠ [] →
  ∃ m, Water.format_water_stops_message stops rnd = Val m ∧ m ≠ MNone ∧ nonblank m.
Proof.
  intros Hall Hne.
  destruct (water_format_spec stops rnd) as (cs1 & cs2 & footer & Hin & H1 & H2 & E).
  eexists. split; [exact E|].
  destruct (returned_shape water_heading (water_current stops) (water_planned stops)
              cs1 cs2 footer) as [Hnone Hnb].
  - apply water_heading_nonempty.
  - by eapply water_headings.
  - by eapply layout_empty_iff.
  - by eapply layout_empty_iff.
  - split; [|exact Hnb]. intros Hm. apply Hnone in Hm as [Hc Hp].
    destruct stops as [|s0 stops]; [done|].
    apply Forall_cons in Hall as [(_ & _ & _ & _ & _ & Hcat) _].
    destruct Hcat as [Hcat | Hcat].
    + assert (s0 ∈ water_current (s0 :: stops)) as Hs0.
      { apply list_elem_of_filter. split; [done | by left]. }
      rewrite Hc in Hs0. by apply elem_of_nil in Hs0.
    + assert (s0 ∈ water_planned (s0 :: stops)) as Hs0.
      { apply list_elem_of_filter. split; [done | by left]. }
      rewrite Hp in Hs0. by apply elem_of_nil in Hs0.
Qed.

(** X6.  Whatever the browser does, a call of [get_water_stops] on a
    service whose cache holds parsed records returns parsed records and
    leaves such a cache; and the water formatter turns every non-empty list
    it returns into a message: never [None], never an empty string. *)
Theorem water_pipeline_yields_a_message (env : water_env) (w : world) (rnd : nat) :
  water_cache_ok (self w) →
  ∃ stops w',
    get_water_stops env w = (Val stops, w')
    ∧ Forall water_record stops
    ∧ water_cache_ok (self w')
    ∧ (stops ≠ [] →
       ∃ m, Water.format_water_stops_message stops rnd = Val m ∧ m ≠ MNone ∧ nonblank m).
Proof.
  intros Hok.
  assert (∃ stops w', get_water_stops env w = (Val stops, w')
                      ∧ Forall water_record stops ∧ water_cache_ok (self w'))
    as (stops & w' & E & Hall & Hok').
  { destruct (water_fresh_or_not (w_now_check env) (self w)) as [Hf|Hf].
    - destruct Hf as (c & t & Hc & Hne & Ht & Hlt).
      exists c, w. split; [by eapply get_water_stops_hit|]. split; [by apply Hok | done].
    - rewrite get_water_stops_miss by done. unfold try_M.
      destruct (water_fetch_outcome env w)
        as [(e & w' & -> & Hself) | (h & stops & r & w' & _ & Hparse & -> & Hself & Hr)].
      + exists [], w'. split; [done|]. split; [constructor|]. by rewrite Hself.
      + apply parse_water_stops_records in Hparse as [Hrec _].
        assert (water_cache_ok (self w')) as Hok'.
        { rewrite Hself. intros c [= <-]. done. }
        destruct Hr as [-> | [e ->]].
        * by exists stops, w'.
        * exists [], w'. split; [done|]. split; [constructor | done]. }
  exists stops, w'. split; [done|]. split; [done|]. split; [done|].
  intros Hne. by apply water_records_render.
Qed.

Lemma water_pipeline_yields_a_message_witness :
  let env := answering_water_env 0
               (example_page [Val (Some (u "Местоположение: ул. Х Начало: 08:00"))]) in
  ∃ stops w',
    get_water_stops env (World init []) = (Val stops, w')
    ∧ Forall water_record stops
    ∧ water_cache_ok (self w')
    ∧ (stops ≠ [] →
       ∃ m, Water.format_water_stops_message stops 0 = Val m ∧ m ≠ MNone ∧ nonblank m).
Proof.
  intros env. apply (water_pipeline_yields_a_message env (World init []) 0).
  intros cached H. simpl in H. discriminate.
Defined.

(** X7.  A failure of the wait for the splash screen or of the click that
    expands the accordion changes nothing: the call returns the same list
    and leaves the same fields as when both succeed, and the steps after
    them are run all the same. *)
Theorem guarded_waits_do_not_matter (env : water_env) (splash expand : res unit) (w : world) :
  get_water_stops (with_waits env splash expand) w = get_water_stops env w.
Proof.
  unfold get_water_stops, water_fetch, with_waits. unfold_M. simpl.
  destruct (cache (self w)) as [[|s c]|]; destruct (cache_time (self w)); simpl;
    try case_bool_decide; try done;
    (destruct (w_launch env); simpl; [|done];
     destruct (w_goto env); simpl; [|done];
     destruct (w_settle env); simpl; [|done];
     destruct splash, expand, (w_splash env), (w_expand env); simpl; done).
Qed.

(** ** The cache, call after call *)

Lemma log_assoc (log : list event) (a b : event) (rest : list event) :
  (log ++ [a]) ++ [b] ++ rest = log ++ a :: b :: rest.
Proof. by rewrite <- app_assoc. Qed.

(** The guarded body of [get_electricity_stops] once the list page is
    read: one POST per municipality, then the de-duplication, the cache and
    the way out. *)
Lemma electricity_fetch_run (env : elec_env) (w : world) (ids : list muni) :
  e_session env = Val () → e_list_page env = Val () → e_municipality_ids env = Val ids →
  electricity_fetch env w
  = let log := calls w ++ HttpSession :: HttpGet :: ((λ m : muni, HttpPost m.1.1) <$> ids) in
    match dedup_loop (collected env 0 ids) ∅ [] with
    | Exc e => (Exc e, World (self w) log)
    | Val unique_stops =>
      (match e_exit env with Val _ => Val unique_stops | Exc e => Exc e end,
       World (Service (Some unique_stops) (Some (e_now_store env))) log)
    end.
Proof.
  intros Hsess Hpage Hids. unfold electricity_fetch.
  unfold mbind at 1 2 3. unfold M_bind at 1 2 3. unfold call at 1 2. unfold lift at 1.
  rewrite Hsess, Hpage, Hids. destruct ids as [|m ids].
  - simpl. unfold_M. simpl.
    destruct (e_exit env); cbn [self calls cache cache_time];
      rewrite <- ?app_assoc; reflexivity.
  - change (negb (truthy (m :: ids))) with false. cbv iota.
    unfold mbind at 1. unfold M_bind at 1. rewrite fetch_details_collects.
    rewrite app_nil_l. unfold_M. cbn [self calls].
    destruct (dedup_loop _ _ _); [destruct (e_exit env)| ];
      cbn [self calls cache cache_time];
      rewrite <- ?app_assoc; reflexivity.
Qed.

Lemma water_fetch_run (env : water_env) (w : world) (h : html) (stops : list stop) :
  w_launch env = Val () → w_goto env = Val () → w_settle env = Val () →
  w_settle2 env = Val () → w_content env = Val h → w_close env = Val () →
  parse_water_stops h = Val stops → w_exit env = Val () →
  ∃ log, water_fetch env w
         = (Val stops, World (Service (Some stops) (Some (w_now_store env))) log).
Proof.
  intros H1 H2 H3 H4 H5 H6 H7 H8. unfold water_fetch. unfold_M. simpl.
  rewrite H1, H2, H3. simpl.
  destruct (w_splash env); simpl; destruct (w_expand env); simpl;
    rewrite H4, H5, H6, H7, H8; simpl; by eauto.
Qed.

(** X8.  After a call that fetched and succeeded, a second call made less
    than 30 minutes after the cache was written returns the same list
    without any browser or network call and leaves the service as it is:
    for the electricity service always, for the water service when the
    list is not empty. *)
Theorem second_call_is_served_from_cache (wenv wenv' : water_env) (eenv eenv' : elec_env)
    (w : world) (h : html) (ids : list muni) :
  (¬ water_fresh (w_now_check wenv) (self w) →
   w_launch wenv = Val () → w_goto wenv = Val () → w_settle wenv = Val () →
   w_settle2 wenv = Val () → w_content wenv = Val h → w_close wenv = Val () →
   w_exit wenv = Val () →
   (w_now_check wenv' - w_now_store wenv < cache_duration)%Z →
   ∀ stops, parse_water_stops h = Val stops → stops ≠ [] →
   ∃ w1, get_water_stops wenv w = (Val stops, w1)
         ∧ get_water_stops wenv' w1 = (Val stops, w1))
  ∧ (¬ electricity_fresh (e_now_check eenv) (self w) →
     e_session eenv = Val () → e_list_page eenv = Val () →
     e_municipality_ids eenv = Val ids →
     (∀ k m ss, e_details eenv k m = Val ss → Forall keyed ss) →
     e_exit eenv = Val () →
     (e_now_check eenv' - e_now_store eenv < cache_duration)%Z →
     ∃ stops w1, get_electricity_stops eenv w = (Val stops, w1)
                 ∧ get_electricity_stops eenv' w1 = (Val stops, w1)).
Proof.
  split.
  - intros Hstale H1 H2 H3 H4 H5 H6 H8 Hlt stops H7 Hne.
    destruct (water_fetch_run wenv w h stops H1 H2 H3 H4 H5 H6 H7 H8) as (log & E).
    rewrite get_water_stops_miss by done. unfold try_M. rewrite E.
    eexists. split; [done|].
    by apply (get_water_stops_hit wenv' _ stops (w_now_store wenv)).
  - intros Hstale H1 H2 H3 Hkeyed H4 Hlt.
    rewrite get_electricity_stops_miss by done. unfold try_M.
    rewrite (electricity_fetch_run eenv w ids H1 H2 H3). cbv zeta.
    destruct (dedup_loop_spec (collected eenv 0 ids) ∅ [] (collected_keyed eenv 0 ids Hkeyed))
      as (U & -> & _). rewrite H4. simpl.
    eexists _, _. split; [done|].
    by apply (get_electricity_stops_hit eenv' _ U (e_now_store eenv)).
Qed.

Lemma second_call_is_served_from_cache_witness :
  let page := example_page [Val (Some (u "Местоположение: ул. Х Начало: 08:00"))] in
  let wenv := answering_water_env 0 page in
  let wenv' := answering_water_env 1799999999 (example_page []) in
  let a := example_outage "Oborishte 1" "08:00" "16:00" "planned" in
  let ids := [(u "SOF43", u "Sredets", u "Sofia")] in
  let eenv := example_elec_env (Val ids) (Val [a; a]) in
  let eenv' := ElecEnv 1799999999 (Exc (External "offline")) (Val ()) (Val [])
                 (λ _ _, Val []) 0 (Val ()) in
  (∃ stops w1, stops ≠ [] ∧ get_water_stops wenv (World init []) = (Val stops, w1)
               ∧ get_water_stops wenv' w1 = (Val stops, w1))
  ∧ (∃ stops w1, get_electricity_stops eenv (World init []) = (Val stops, w1)
                 ∧ get_electricity_stops eenv' w1 = (Val stops, w1)).
Proof.
  intros page wenv wenv' a ids eenv eenv'.
  destruct (second_call_is_served_from_cache wenv wenv' eenv eenv' (World init []) page ids)
    as [Hw He].
  split.
  - destruct (parse_water_stops page) as [stops|] eqn:Hparse; [|vm_compute in Hparse; done].
    assert (stops ≠ []) as Hne.
    { intros ->. vm_compute in Hparse. discriminate. }
    destruct (Hw) with (stops := stops) as (w1 & E1 & E2); try reflexivity; try done.
    + intros (c & t & Hc & _). simpl in Hc. discriminate.
    + by eauto.
  - apply He; try reflexivity.
    + intros (c & t & Hc & _). simpl in Hc. discriminate.
    + intros k m ss [= <-]. repeat constructor; eexists; vm_compute; reflexivity.
Defined.

(** X9.  A cache entry is stale as soon as 30 minutes have passed, the
    thirtieth minute included: the call then runs the fetch again, whatever
    the cached list. *)
Theorem expired_cache_is_refetched (wenv : water_env) (eenv : elec_env)
    (cached : list stop) (t0 : Z) (log : list event) :
  let w := World (Service (Some cached) (Some t0)) log in
  ((cache_duration ≤ w_now_check wenv - t0)%Z →
   ∃ rest, calls (get_water_stops wenv w).2 = log ++ Browser "launch" :: rest)
  ∧ ((cache_duration ≤ e_now_check eenv - t0)%Z →
     ∃ rest, calls (get_electricity_stops eenv w).2 = log ++ HttpSession :: rest).
Proof.
  intros w. split; intros Hexp.
  - rewrite get_water_stops_miss, try_M_calls.
    + apply (water_fetch_launches wenv w).
    + intros (c & t & Hc & _ & [= <-] & Hlt). lia.
  - rewrite get_electricity_stops_miss, try_M_calls.
    + apply (electricity_fetch_opens_session eenv w).
    + intros (c & t & Hc & [= <-] & Hlt). lia.
Qed.

Lemma expired_cache_is_refetched_witness :
  let cached := [example_outage "Oborishte 1" "08:00" "16:00" "planned"] in
  let w := World (Service (Some cached) (Some 0%Z)) [] in
  let wenv := answering_water_env cache_duration (example_page []) in
  let eenv := ElecEnv cache_duration (Val ()) (Val ()) (Val []) (λ _ _, Val []) 0 (Val ()) in
  (∃ rest, calls (get_water_stops wenv w).2 = [] ++ Browser "launch" :: rest)
  ∧ (∃ rest, calls (get_electricity_stops eenv w).2 = [] ++ HttpSession :: rest).
Proof.
  intros cached w wenv eenv.
  destruct (expired_cache_is_refetched wenv eenv cached 0 []) as [Hw He].
  split; [apply Hw | apply He]; vm_compute; discriminate.
Defined.

(** X10.  A call of [get_electricity_stops] that fetches and obtains the
    list page opens one session, gets the list page once and posts one
    detail request per listed municipality, in the order of the list,
    whatever the outcome of each of them. *)
Theorem one_detail_request_per_municipality (env : elec_env) (w : world) (ids : list muni) :
  ¬ electricity_fresh (e_now_check env) (self w) →
  e_session env = Val () → e_list_page env = Val () → e_municipality_ids env = Val ids →
  calls (get_electricity_stops env w).2
  = calls w ++ HttpSession :: HttpGet :: ((λ m : muni, HttpPost m.1.1) <$> ids).
Proof.
  intros Hstale H1 H2 H3. rewrite get_electricity_stops_miss, try_M_calls by done.
  rewrite (electricity_fetch_run env w ids H1 H2 H3). cbv zeta.
  by destruct (dedup_loop _ _ _).
Qed.

Lemma one_detail_request_per_municipality_witness :
  let ids := [(u "SOF43", u "Sredets", u "Sofia"); (u "SOF12", u "Lozenets", u "Sofia")] in
  let env := example_elec_env (Val ids) (Exc (External "timeout")) in
  calls (get_electricity_stops env (World init [])).2
  = [] ++ HttpSession :: HttpGet :: ((λ m : muni, HttpPost m.1.1) <$> ids).
Proof.
  intros ids env. apply (one_detail_request_per_municipality env (World init []) ids).
  - intros (c & t & Hc & _). simpl in Hc. discriminate.
  - reflexivity.
  - reflexivity.
  - reflexivity.
Defined.

Lemma collected_all_fail (env : elec_env) (k : nat) (ids : list muni) :
  (∀ k m, raises (e_details env k m)) → collected env k ids = [].
Proof.
  intros Hfail. revert k. induction ids as [|m ids IH]; intros k; simpl; [done|].
  destruct (Hfail k m) as [e ->]. by rewrite IH.
Qed.

(** X11.  When the list page is obtained but every detail request fails,
    [get_electricity_stops] returns the empty list and stores it with the
    time, so that calls made in the following 30 minutes return the empty
    list without trying the network. *)
Theorem failed_details_are_cached_as_empty (env env' : elec_env) (w : world)
    (ids : list muni) :
  ¬ electricity_fresh (e_now_check env) (self w) →
  e_session env = Val () → e_list_page env = Val () → e_municipality_ids env = Val ids →
  (∀ k m, raises (e_details env k m)) →
  e_exit env = Val () →
  (e_now_check env' - e_now_store env < cache_duration)%Z →
  ∃ w1, get_electricity_stops env w = (Val [], w1)
        ∧ self w1 = Service (Some []) (Some (e_now_store env))
        ∧ get_electricity_stops env' w1 = (Val [], w1).
Proof.
  intros Hstale H1 H2 H3 Hfail H4 Hlt.
  rewrite get_electricity_stops_miss by done. unfold try_M.
  rewrite (electricity_fetch_run env w ids H1 H2 H3). cbv zeta.
  rewrite (collected_all_fail env 0 ids Hfail). simpl. rewrite H4.
  eexists. split; [done|]. split; [done|].
  by apply (get_electricity_stops_hit env' _ [] (e_now_store env)).
Qed.

Lemma failed_details_are_cached_as_empty_witness :
  let ids := [(u "SOF43", u "Sredets", u "Sofia"); (u "SOF12", u "Lozenets", u "Sofia")] in
  let env := example_elec_env (Val ids) (Exc (External "timeout")) in
  let env' := ElecEnv 1799999999 (Val ()) (Val ()) (Val ids) (λ _ _, Val []) 0 (Val ()) in
  ∃ w1, get_electricity_stops env (World init []) = (Val [], w1)
        ∧ self w1 = Service (Some []) (Some (e_now_store env))
        ∧ get_electricity_stops env' w1 = (Val [], w1).
Proof.
  intros ids env env'.
  apply (failed_details_are_cached_as_empty env env' (World init []) ids);
    try reflexivity.
  - intros (c & t & Hc & _). simpl in Hc. discriminate.
  - intros k m. eexists. reflexivity.
Defined.

(** ** The electricity detail request *)

Lemma outage_record_fields (lower capitalize : str → str) (outage : gmap string str)
    (muni_name region : str) :
  electricity_record muni_name region (outage_record lower capitalize outage muni_name region).
Proof.
  unfold electricity_record, keyed, stop_key, getitem, outage_record.
  split; [|split; [|split; [|split]]].
  - eexists. by simplify_map_eq.
  - by simplify_map_eq.
  - by simplify_map_eq.
  - eexists. by simplify_map_eq.
  - simplify_map_eq. destruct (contains _ _); by eauto.
Qed.

Lemma outage_record_location (lower capitalize : str → str) (outage : gmap string str)
    (muni_name region : str) :
  muni_name ≠ [] →
  ∃ v, outage_record lower capitalize outage muni_name region !! "location" = Some v ∧ v ≠ [].
Proof.
  intros Hne. unfold outage_record. eexists. split; [by simplify_map_eq|].
  destruct (get_or outage "city_name" []) as [|c v]; simpl; [|done].
  destruct (get_or outage "cities" []) as [|c v]; simpl; done.
Qed.

Lemma outage_records_fields (lower capitalize : str → str)
    (items : list (str * option (gmap string str))) (muni_name region : str) :
  Forall (electricity_record muni_name region)
    (outage_records lower capitalize items muni_name region)
  ∧ (muni_name ≠ [] →
     Forall (λ s : stop, ∃ v, s !! "location" = Some v ∧ v ≠ [])
       (outage_records lower capitalize items muni_name region))
  ∧ length (outage_records lower capitalize items muni_name region) ≤ length items.
Proof.
  unfold outage_records.
  induction items as [|[key [outage|]] items (IH1 & IH2 & IH3)]; simpl.
  - split; [constructor|]. split; [constructor | done].
  - case_bool_decide; simpl.
    + split; [done|]. split; [done | lia].
    + split; [constructor; [apply outage_record_fields | done]|].
      split; [|lia]. intros Hne. constructor; [by apply outage_record_location | by apply IH2].
  - split; [done|]. split; [done | lia].
Qed.

Lemma fetch_municipality_details_Val (lower capitalize : str → str)
    (loads : str → res decoded) (post : res str) (muni_name region : str) (ss : list stop) :
  fetch_municipality_details lower capitalize loads post muni_name region = Val ss →
  ss = [] ∨ ∃ items, ss = outage_records lower capitalize items muni_name region.
Proof.
  unfold fetch_municipality_details. destruct post as [text|e]; simpl; [|done].
  destruct (_ || _); [intros [= <-]; by left|].
  destruct (loads _) as [[items|]|[| | | what]]; try done.
  - intros [= <-]. right. by exists items.
  - destruct (String.eqb what _); [|done]. intros [= <-]. by left.
Qed.

(** X12.  Every record that [_fetch_municipality_details] returns has the
    four fields of the de-duplication key, carries the municipality and the
    region it was asked for, has a type, and is in one of the two
    categories the formatter shows; its location is not empty when the
    municipality name is not. *)
Theorem fetch_municipality_details_records (lower capitalize : str → str)
    (loads : str → res decoded) (post : res str) (muni_name region : str) (ss : list stop) :
  fetch_municipality_details lower capitalize loads post muni_name region = Val ss →
  Forall (electricity_record muni_name region) ss
  ∧ (muni_name ≠ [] → Forall (λ s : stop, ∃ v, s !! "location" = Some v ∧ v ≠ []) ss).
Proof.
  intros [-> | [items ->]]%fetch_municipality_details_Val.
  - split; [constructor | by constructor].
  - destruct (outage_records_fields lower capitalize items muni_name region) as (H1 & H2 & _).
    by split.
Qed.

Lemma fetch_municipality_details_records_witness :
  let loads := example_loads [(u "cnt", None); (u "0", Some example_planned_outage);
                              (u "1", Some ∅)] in
  let name := u "Sredets" in
  let region := u "София-град" in
  ∃ ss, fetch_municipality_details id id loads (Val (u "{outages}")) name region = Val ss
        ∧ length ss = 2
        ∧ Forall (electricity_record name region) ss
        ∧ (name ≠ [] → Forall (λ s : stop, ∃ v, s !! "location" = Some v ∧ v ≠ []) ss).
Proof.
  intros loads name region. eexists. split; [reflexivity|]. split; [reflexivity|].
  apply (fetch_municipality_details_records id id loads (Val (u "{outages}")) name region).
  reflexivity.
Defined.

(** X13.  A byte-order mark before the body changes nothing, for a body
    that does not itself begin with one (a single mark is removed). *)
Theorem byte_order_mark_is_ignored (lower capitalize : str → str)
    (loads : str → res decoded) (text muni_name region : str) :
  starts_with [bom] text = false →
  fetch_municipality_details lower capitalize loads (Val (bom :: text)) muni_name region
  = fetch_municipality_details lower capitalize loads (Val text) muni_name region.
Proof.
  intros Hno. unfold fetch_municipality_details. cbn [mbind res_bind].
  change [65279%N] with [bom]. rewrite Hno.
  assert (starts_with [bom] (bom :: text) = true) as ->.
  { apply starts_with_iff. by exists text. }
  done.
Qed.

Lemma byte_order_mark_is_ignored_witness :
  let loads := example_loads [(u "0", Some example_planned_outage)] in
  fetch_municipality_details id id loads (Val (bom :: u "{outages}")) (u "Sredets") (u "Sofia")
  = fetch_municipality_details id id loads (Val (u "{outages}")) (u "Sredets") (u "Sofia").
Proof.
  intros loads.
  apply (byte_order_mark_is_ignored id id loads (u "{outages}")). reflexivity.
Defined.

(** X14.  The bodies that carry no outage: for an empty body, for [[]] and
    for [{}], with or without a byte-order mark, [_fetch_municipality_details]
    returns the empty list without decoding anything; a body that
    [json.loads] rejects gives the empty list as well; a body that decodes
    to something else than an object raises (there is no [items]), which the
    caller counts as the failure of this municipality. *)
Theorem bodies_without_outages (lower capitalize : str → str)
    (loads : str → res decoded) (text muni_name region : str) :
  let fetch body := fetch_municipality_details lower capitalize loads (Val body)
                      muni_name region in
  (text ∈ [ []; u "[]"; u "{}" ] → fetch text = Val [] ∧ fetch (bom :: text) = Val [])
  ∧ (starts_with [bom] text = false →
     loads text = Exc (External "JSONDecodeError") → fetch text = Val [])
  ∧ (starts_with [bom] text = false → text ∉ [ []; u "[]"; u "{}" ] →
     loads text = Val None → raises (fetch text)).
Proof.
  intros fetch. subst fetch. cbv beta. split; [|split].
  - intros Hin. rewrite !elem_of_cons, elem_of_nil in Hin.
    destruct Hin as [-> | [-> | [-> | []]]]; split; reflexivity.
  - intros Hno Hloads. unfold fetch_municipality_details. cbn [mbind res_bind].
    change [65279%N] with [bom]. rewrite Hno, Hloads.
    by destruct (_ || _).
  - intros Hno Hnot Hloads. unfold fetch_municipality_details. cbn [mbind res_bind].
    change [65279%N] with [bom]. rewrite Hno, Hloads.
    destruct text as [|c text]; [exfalso; apply Hnot; by left|]. simpl.
    repeat case_bool_decide; simpl;
      try (exfalso; apply Hnot; rewrite !elem_of_cons; by auto).
    by eexists.
Qed.

Lemma bodies_without_outages_witness :
  let rejects := λ _ : str, Exc (External "JSONDecodeError") : res decoded in
  let scalar := λ _ : str, Val None : res decoded in
  fetch_municipality_details id id rejects (Val (u "{}")) (u "Sredets") (u "Sofia") = Val []
  ∧ fetch_municipality_details id id rejects (Val (u "<html>")) (u "Sredets") (u "Sofia")
    = Val []
  ∧ raises (fetch_municipality_details id id scalar (Val (u "[1]")) (u "Sredets") (u "Sofia")).
Proof.
  intros rejects scalar. split; [|split].
  - destruct (bodies_without_outages id id rejects (u "{}") (u "Sredets") (u "Sofia"))
      as (H & _ & _).
    apply H. rewrite !elem_of_cons. right. right. left. reflexivity.
  - destruct (bodies_without_outages id id rejects (u "<html>") (u "Sredets") (u "Sofia"))
      as (_ & H & _).
    apply H; reflexivity.
  - destruct (bodies_without_outages id id scalar (u "[1]") (u "Sredets") (u "Sofia"))
      as (_ & _ & H).
    apply H; [reflexivity | | reflexivity].
    rewrite !elem_of_cons, elem_of_nil. intros [E | [E | [E | []]]];
      apply (f_equal length) in E; vm_compute in E; discriminate.
Defined.

(** ** The municipality list *)

(** X15.  [_parse_municipality_ids] keeps the items whose handler names the
    region SOF, in the order of the page, and no other; every triple it
    returns carries the region name София-град and a municipality name
    without white space around it. *)
Theorem parse_municipality_ids_keeps_sofia (strip_label : str → str) (items : list li_item) :
  let municipalities := parse_municipality_ids strip_label items in
  municipalities.*1.*1 = omap sofia_id items
  ∧ Forall (λ m : muni,
              m.2 = u "София-град"
              ∧ (∀ c, head m.1.2 = Some c → is_space c = false)
              ∧ (∀ c, last m.1.2 = Some c → is_space c = false)) municipalities.
Proof.
  cbv zeta. unfold parse_municipality_ids.
  induction items as [|li items [IH1 IH2]]; simpl; [by split|].
  unfold sofia_id at 1. destruct (li_match li) as [[muni_id region_code]|]; [|done].
  destruct (decide (region_code = u "SOF")) as [->|Hne].
  - rewrite (bool_decide_eq_false_2 (u "SOF" ≠ u "SOF")) by (intros H; by apply H).
    rewrite bool_decide_eq_true_2 by done. simpl.
    split; [f_equal; exact IH1|]. constructor; [|exact IH2]. simpl.
    split; [by vm_compute|]. split; [apply strip_head | apply strip_last].
  - rewrite (bool_decide_eq_true_2 (region_code ≠ u "SOF")) by done.
    rewrite bool_decide_eq_false_2 by done. simpl. by split.
Qed.

(** ** From the list page to the message *)











(** ** What the formatters look at *)

Lemma chunk_loop_alike (R : stop → stop → Prop) (entry : nat → stop → str)
    (banner : list str → str) (l l' : list (nat * stop)) (ms : list str) (chunk : str) :
  (∀ i s t, R s t → entry i s = entry i t) →
  Forall2 (λ x y, x.1 = y.1 ∧ R x.2 y.2) l l' →
  chunk_loop entry banner l ms chunk = chunk_loop entry banner l' ms chunk.
Proof.
  intros Hentry Hall. revert ms chunk.
  induction Hall as [|[i s] [j t] l l' [Hi HR] _ IH]; intros ms chunk; simpl; [done|].
  simpl in Hi, HR. subst j. rewrite (Hentry i s t HR). by rewrite !IH.
Qed.

Lemma enumerate_alike (R : stop → stop → Prop) (k : nat) (g g' : list stop) :
  Forall2 R g g' →
  Forall2 (λ x y : nat * stop, x.1 = y.1 ∧ R x.2 y.2) (enumerate k g) (enumerate k g').
Proof.
  intros Hall. revert k. induction Hall as [|s t g g' HR _ IH]; intros k; simpl.
  - constructor.
  - constructor; [by split | apply IH].
Qed.

Lemma entries_alike (R : stop → stop → Prop) (single : nat → stop → str)
    (l l' : list (nat * stop)) :
  (∀ i s t, R s t → single i s = single i t) →
  Forall2 (λ x y, x.1 = y.1 ∧ R x.2 y.2) l l' →
  uncurry single <$> l = uncurry single <$> l'.
Proof.
  intros Hsingle Hall.
  induction Hall as [|[i s] [j t] l l' [Hi HR] _ IH]; simpl; [done|].
  simpl in Hi, HR. subst j. rewrite (Hsingle i s t HR). by f_equal.
Qed.

Lemma section_alike (R : stop → stop → Prop) (single entry : nat → stop → str)
    (counted part1 : str) (banner : list str → str) (g g' : list stop) (ms : list str) :
  (∀ i s t, R s t → single i s = single i t) →
  (∀ i s t, R s t → entry i s = entry i t) →
  Forall2 R g g' →
  section single entry counted part1 banner g ms
  = section single entry counted part1 banner g' ms.
Proof.
  intros Hsingle Hentry Hall. unfold section.
  assert (truthy g = truthy g') as ->.
  { by destruct Hall. }
  pose proof (enumerate_alike R 1 g g' Hall) as Henum.
  rewrite !fold_left_entries.
  rewrite (entries_alike R single _ _ Hsingle Henum).
  by rewrite (chunk_loop_alike R entry banner _ _ ms part1 Hentry Henum).
Qed.

(** The water formatter, as a function of the two groups. *)
Lemma water_format_of_groups (stops : list stop) (rnd : nat) :
  Water.format_water_stops_message stops rnd
  = finish Water.footers
      (section Water.planned_entry Water.planned_entry
         (Water.planned_counted (length (water_planned stops)))
         (Water.planned_part 1)
         (λ messages,
            Water.planned_part
              (length messages
               - length (filter (λ m, contains m (u "CURRENT") = true) messages) + 1))
         (water_planned stops)
         (section Water.current_entry Water.current_entry
            (Water.header ++ Water.current_counted (length (water_current stops)))
            (Water.header ++ Water.current_part 1)
            (λ messages, Water.current_part (length messages + 1))
            (water_current stops) []))
      rnd.
Proof. by destruct stops. Qed.

(** The electricity formatter, as a function of the two groups. *)
Lemma electricity_format_of_groups (upper : str → str) (stops : list stop) (rnd : nat) :
  Electricity.format_electricity_stops_message upper stops rnd
  = finish Electricity.footers
      (section (Electricity.single_entry upper) Electricity.entry
         (Electricity.planned_counted (length (electricity_planned stops)))
         (Electricity.planned_part 1)
         (λ messages,
            Electricity.planned_part
              (length (filter (λ m, contains m (u "PLANNED") = true) messages) + 1))
         (electricity_planned stops)
         (section (Electricity.single_entry upper) Electricity.entry
            (Electricity.header
             ++ Electricity.unplanned_counted (length (electricity_unplanned stops)))
            (Electricity.header ++ Electricity.unplanned_part 1)
            (λ messages, Electricity.unplanned_part (length messages + 1))
            (electricity_unplanned stops) []))
      rnd.
Proof. by destruct stops. Qed.

Lemma water_entries_alike (i : nat) (s t : stop) :
  water_alike s t →
  Water.current_entry i s = Water.current_entry i t
  ∧ Water.planned_entry i s = Water.planned_entry i t.
Proof.
  intros (Hl & Hs & He). unfold Water.current_entry, Water.planned_entry, get_or.
  by rewrite Hl, Hs, He.
Qed.

Lemma electricity_entries_alike (upper : str → str) (i : nat) (s t : stop) :
  electricity_alike s t →
  Electricity.single_entry upper i s = Electricity.single_entry upper i t
  ∧ Electricity.entry i s = Electricity.entry i t.
Proof.
  intros ((Hl & Hs & He) & Hm & Hr).
  unfold Electricity.single_entry, Electricity.loc_str, Electricity.entry, get_or.
  by rewrite Hl, Hs, He, Hm, Hr.
Qed.

(** X18.  A message depends on the records of the formatter's two
    categories only, group by group in order, and within a record on the
    fields it shows: location, start and end (and, for electricity,
    municipality and region).  Records of other categories, the way the two
    categories interleave in the list, and fields such as type, description
    or type_bg never change it. *)
Theorem message_depends_on_shown_fields (upper : str → str) (a b : list stop) (rnd : nat) :
  (Forall2 water_alike (water_current a) (water_current b) →
   Forall2 water_alike (water_planned a) (water_planned b) →
   Water.format_water_stops_message a rnd = Water.format_water_stops_message b rnd)
  ∧ (Forall2 electricity_alike (electricity_unplanned a) (electricity_unplanned b) →
     Forall2 electricity_alike (electricity_planned a) (electricity_planned b) →
     Electricity.format_electricity_stops_message upper a rnd
     = Electricity.format_electricity_stops_message upper b rnd).
Proof.
  split; intros H1 H2.
  - rewrite !water_format_of_groups.
    rewrite <- (Forall2_length _ _ _ H1), <- (Forall2_length _ _ _ H2).
    rewrite (section_alike water_alike _ _ _ _ _ (water_current a) (water_current b));
      [|intros; by apply water_entries_alike..|done].
    rewrite (section_alike water_alike _ _ _ _ _ (water_planned a) (water_planned b));
      [done|intros; by apply water_entries_alike..|done].
  - rewrite !electricity_format_of_groups.
    rewrite <- (Forall2_length _ _ _ H1), <- (Forall2_length _ _ _ H2).
    rewrite (section_alike electricity_alike _ _ _ _ _
               (electricity_unplanned a) (electricity_unplanned b));
      [|intros; by apply electricity_entries_alike..|done].
    rewrite (section_alike electricity_alike _ _ _ _ _
               (electricity_planned a) (electricity_planned b));
      [done|intros; by apply electricity_entries_alike..|done].
Qed.

Lemma message_depends_on_shown_fields_witness :
  let a := [described "planned"; described "other"; described "current";
            described "unplanned"] in
  let b := [example_outage "Oborishte 1" "08:00" "16:00" "current";
            example_outage "Oborishte 1" "08:00" "16:00" "unplanned";
            example_outage "Oborishte 1" "08:00" "16:00" "planned"] in
  Water.format_water_stops_message a 0 = Water.format_water_stops_message b 0
  ∧ Electricity.format_electricity_stops_message Electricity.ascii_upper a 0
    = Electricity.format_electricity_stops_message Electricity.ascii_upper b 0.
Proof.
  intros a b.
  destruct (message_depends_on_shown_fields Electricity.ascii_upper a b 0) as [Hw He].
  split; [apply Hw | apply He];
    repeat constructor; vm_compute; reflexivity.
Defined.

(** X19.  The random draw only picks the footer: the messages are fixed by
    the records, and for every draw the value returned is these messages
    with one of the four footers appended to the last of them. *)
Theorem random_draw_only_picks_the_footer (upper : str → str) (stops : list stop) :
  (∃ ms, ∀ rnd, ∃ footer,
     footer ∈ Water.footers
     ∧ Water.format_water_stops_message stops rnd = Val (shape (with_footer ms footer)))
  ∧ (∃ ms, ∀ rnd, ∃ footer,
       footer ∈ Electricity.footers
       ∧ Electricity.format_electricity_stops_message upper stops rnd
         = Val (shape (with_footer ms footer))).
Proof.
  split.
  - eexists. intros rnd. rewrite water_format_of_groups.
    apply finish_spec, water_footers_nonempty.
  - eexists. intros rnd. rewrite electricity_format_of_groups.
    apply finish_spec, electricity_footers_nonempty.
Qed.

(** ** The numbering of the parts *)

(** The splitting loop once more, with the banner of every continuation
    chunk: it is computed from the messages completed before the chunk. *)
Lemma chunk_loop_banners entry banner stops ms h es0 :
  bounded (h, es0) →
  ∃ es cs,
    (chunk_loop entry banner stops ms (h ++ concat es0)).1
      ++ [(chunk_loop entry banner stops ms (h ++ concat es0)).2]
    = ms ++ (render <$> ((h, es0 ++ es) :: cs))
    ∧ es ++ concat (snd <$> cs) = uncurry entry <$> stops
    ∧ Forall (λ c, ∃ ms', c.1 = banner ms') cs
    ∧ Forall bounded ((h, es0 ++ es) :: cs)
    ∧ (length (h ++ concat es0) ≤ 1900 →
       1900 < length (h ++ concat es0) + length (concat (uncurry entry <$> stops)) →
       cs ≠ [])
    ∧ (∀ k c, cs !! k = Some c →
         c.1 = banner (ms ++ (render <$> take (S k) ((h, es0 ++ es) :: cs)))).
Proof.
  revert ms h es0. induction stops as [|[i s] stops IH]; intros ms h es0 Hb; simpl.
  - exists [], []. rewrite app_nil_r.
    split; [done|]. split; [done|]. split; [done|]. split; [by constructor|].
    split; [intros; lia | done].
  - destruct (1900 <? length (h ++ concat es0) + length (entry i s)) eqn:Hover.
    + apply Nat.ltb_lt in Hover.
      set (ms1 := ms ++ [h ++ concat es0]).
      destruct (IH ms1 (banner ms1) [entry i s])
        as (es' & cs' & E & Hes & Hhd & Hbd & _ & Hban).
      { right. done. }
      simpl in E. rewrite app_nil_r in E.
      exists [], ((banner ms1, [entry i s] ++ es') :: cs').
      split; [|split; [|split; [|split; [|split]]]].
      * refine (eq_trans E _). subst ms1. rewrite app_nil_r, <- (assoc_L (++)). done.
      * simpl. f_equal. exact Hes.
      * constructor; [by eexists | done].
      * constructor; [by rewrite app_nil_r | done].
      * done.
      * intros [|k] c Hc.
        -- injection Hc as <-. simpl. unfold render. simpl. by rewrite app_nil_r.
        -- simpl in Hc. rewrite (Hban k c Hc). f_equal. subst ms1.
           rewrite <- (assoc_L (++)). f_equal. simpl. f_equal.
           unfold render. simpl. by rewrite app_nil_r.
    + apply Nat.ltb_ge in Hover.
      assert ((h ++ concat es0) ++ entry i s = h ++ concat (es0 ++ [entry i s])) as Echunk.
      { rewrite concat_app. simpl. by rewrite app_nil_r, (assoc_L (++)). }
      rewrite Echunk.
      destruct (IH ms h (es0 ++ [entry i s]))
        as (es' & cs' & E & Hes & Hhd & Hbd & Hcount & Hban).
      { left. unfold render. simpl. rewrite <- Echunk, length_app. lia. }
      exists (entry i s :: es'), cs'.
      rewrite <- (assoc_L (++)) in E, Hbd, Hban. simpl in E, Hbd, Hban.
      split; [|split; [|split; [|split; [|split]]]].
      * done.
      * simpl. f_equal. exact Hes.
      * done.
      * done.
      * intros Hle Hgt. apply Hcount.
        -- rewrite <- Echunk, length_app. lia.
        -- rewrite <- Echunk. rewrite !length_app in *.
           change (list_fmap _ _ (uncurry entry) stops)
             with (uncurry entry <$> stops) in Hgt.
           lia.
      * exact Hban.
Qed.

(** One section, with the banners of its continuation chunks. *)
Lemma section_banners single entry counted part1 banner stops ms :
  part1 ≠ [] → length part1 ≤ 1900 → (∀ ms', banner ms' ≠ []) →
  ∃ cs, section single entry counted part1 banner stops ms = ms ++ (render <$> cs)
        ∧ section_layout single entry counted part1 banner stops cs
        ∧ (∀ k c, cs !! S k = Some c →
             c.1 = banner (ms ++ (render <$> take (S k) cs))).
Proof.
  intros Hp1 Hlen Hb. unfold section, section_layout.
  destruct stops as [|s0 stops]; simpl truthy; cbv iota.
  { exists []. by rewrite app_nil_r. }
  rewrite fold_left_entries.
  destruct (1900 <? _).
  2:{ exists [(counted, uncurry single <$> enumerate 1 (s0 :: stops))].
      split; [reflexivity|]. split; [reflexivity|]. by intros k c Hc. }
  unfold split_layout. remember (enumerate 1 (s0 :: stops)) as l eqn:El. clear El.
  pose proof (chunk_loop_nonempty entry banner l ms part1 Hp1 Hb) as Hne.
  destruct (chunk_loop_banners entry banner l ms part1 [])
    as (es & cs & E & Hes & Hhd & Hbd & Hcount & Hban).
  { left. unfold render. simpl. by rewrite app_nil_r. }
  simpl concat in E, Hcount. rewrite app_nil_r in E, Hcount.
  change ([] ++ es) with es in E, Hbd, Hban.
  destruct (chunk_loop entry banner l ms part1) as [ms' cm].
  cbn [fst snd] in E, Hne. destruct cm as [|c cm]; [done|]. simpl truthy. cbv iota.
  exists ((part1, es) :: cs). split; [exact E|]. split.
  - exists es, cs. split; [done|]. split; [exact Hes|]. split; [done|]. split; [done|].
    intros Hgt. by apply Hcount.
  - intros k c' Hc'. by apply Hban.
Qed.

(** The water formatter, with the banners of the continuation chunks. *)
Lemma water_format_banners (stops : list stop) (rnd : nat) :
  ∃ cs1 cs2 footer,
    footer ∈ Water.footers
    ∧ water_current_layout (water_current stops) cs1
    ∧ water_planned_layout (water_planned stops) cs2
    ∧ Water.format_water_stops_message stops rnd
      = Val (shape (with_footer (render <$> (cs1 ++ cs2)) footer))
    ∧ (∀ k c, cs1 !! S k = Some c →
         c.1 = Water.current_part (length (render <$> take (S k) cs1) + 1))
    ∧ (∀ k c, cs2 !! S k = Some c →
         let messages := (render <$> cs1) ++ (render <$> take (S k) cs2) in
         c.1 = Water.planned_part
                 (length messages
                  - length (filter (λ m, contains m (u "CURRENT") = true) messages) + 1)).
Proof.
  rewrite water_format_of_groups.
  destruct water_part1_length as [Hl1 Hl2].
  edestruct (section_banners Water.current_entry Water.current_entry)
    as (cs1 & -> & Hcs1 & Hb1).
  { apply (header_app_nonempty _ _ water_header_length). }
  { exact Hl1. }
  { intros ms'. apply (other_heading_nonempty Water.header), water_current_part_other. }
  edestruct (section_banners Water.planned_entry Water.planned_entry)
    as (cs2 & -> & Hcs2 & Hb2).
  { apply (other_heading_nonempty Water.header), water_planned_part_other. }
  { exact Hl2. }
  { intros ms'. apply (other_heading_nonempty Water.header), water_planned_part_other. }
  rewrite app_nil_l.
  destruct (finish_spec Water.footers ((render <$> cs1) ++ (render <$> cs2)) rnd
              water_footers_nonempty) as (footer & Hin & E).
  exists cs1, cs2, footer. rewrite fmap_app.
  split; [done|]. split; [exact Hcs1|]. split; [exact Hcs2|]. split; [exact E|].
  split.
  - intros k c Hc. exact (Hb1 k c Hc).
  - intros k c Hc. exact (Hb2 k c Hc).
Qed.

(** The electricity formatter, with the banners of the continuation chunks. *)
Lemma electricity_format_banners (upper : str → str) (stops : list stop) (rnd : nat) :
  ∃ cs1 cs2 footer,
    footer ∈ Electricity.footers
    ∧ electricity_unplanned_layout upper (electricity_unplanned stops) cs1
    ∧ electricity_planned_layout upper (electricity_planned stops) cs2
    ∧ Electricity.format_electricity_stops_message upper stops rnd
      = Val (shape (with_footer (render <$> (cs1 ++ cs2)) footer))
    ∧ (∀ k c, cs1 !! S k = Some c →
         c.1 = Electricity.unplanned_part (length (render <$> take (S k) cs1) + 1))
    ∧ (∀ k c, cs2 !! S k = Some c →
         let messages := (render <$> cs1) ++ (render <$> take (S k) cs2) in
         c.1 = Electricity.planned_part
                 (length (filter (λ m, contains m (u "PLANNED") = true) messages) + 1)).
Proof.
  rewrite electricity_format_of_groups.
  destruct electricity_part1_length as [Hl1 Hl2].
  destruct (section_banners (Electricity.single_entry upper) Electricity.entry
              (Electricity.header
               ++ Electricity.unplanned_counted (length (electricity_unplanned stops)))
              (Electricity.header ++ Electricity.unplanned_part 1)
              (λ messages, Electricity.unplanned_part (length messages + 1))
              (electricity_unplanned stops) [])
    as (cs1 & -> & Hcs1 & Hb1).
  { apply (header_app_nonempty _ _ electricity_header_length). }
  { exact Hl1. }
  { intros ms'. apply (other_heading_nonempty Electricity.header),
      electricity_unplanned_part_other. }
  edestruct (section_banners (Electricity.single_entry upper) Electricity.entry)
    as (cs2 & -> & Hcs2 & Hb2).
  { apply (other_heading_nonempty Electricity.header), electricity_planned_part_other. }
  { exact Hl2. }
  { intros ms'. apply (other_heading_nonempty Electricity.header),
      electricity_planned_part_other. }
  rewrite app_nil_l.
  destruct (finish_spec Electricity.footers ((render <$> cs1) ++ (render <$> cs2)) rnd
              electricity_footers_nonempty) as (footer & Hin & E).
  exists cs1, cs2, footer. rewrite fmap_app.
  split; [done|]. split; [exact Hcs1|]. split; [exact Hcs2|]. split; [exact E|].
  split.
  - intros k c Hc. exact (Hb1 k c Hc).
  - intros k c Hc. exact (Hb2 k c Hc).
Qed.

(** X20.  When the first section of a message is split, its chunks are
    numbered in sequence: the chunk after the first is headed Part 2, the
    next Part 3, and so on, in both formatters. *)
Theorem first_section_parts_are_numbered (upper : str → str) (stops : list stop)
    (rnd : nat) :
  (∃ cs1 cs2 footer,
     footer ∈ Water.footers
     ∧ water_current_layout (water_current stops) cs1
     ∧ water_planned_layout (water_planned stops) cs2
     ∧ Water.format_water_stops_message stops rnd
       = Val (shape (with_footer (render <$> (cs1 ++ cs2)) footer))
     ∧ ∀ k c, cs1 !! S k = Some c → c.1 = Water.current_part (k + 2))
  ∧ (∃ cs1 cs2 footer,
       footer ∈ Electricity.footers
       ∧ electricity_unplanned_layout upper (electricity_unplanned stops) cs1
       ∧ electricity_planned_layout upper (electricity_planned stops) cs2
       ∧ Electricity.format_electricity_stops_message upper stops rnd
         = Val (shape (with_footer (render <$> (cs1 ++ cs2)) footer))
       ∧ ∀ k c, cs1 !! S k = Some c → c.1 = Electricity.unplanned_part (k + 2)).
Proof.
  split.
  - destruct (water_format_banners stops rnd)
      as (cs1 & cs2 & footer & Hin & H1 & H2 & E & Hb & _).
    exists cs1, cs2, footer. split; [done|]. split; [done|]. split; [done|].
    split; [done|]. intros k c Hc. rewrite (Hb k c Hc). f_equal.
    rewrite length_fmap, length_take. apply lookup_lt_Some in Hc. lia.
  - destruct (electricity_format_banners upper stops rnd)
      as (cs1 & cs2 & footer & Hin & H1 & H2 & E & Hb & _).
    exists cs1, cs2, footer. split; [done|]. split; [done|]. split; [done|].
    split; [done|]. intros k c Hc. rewrite (Hb k c Hc). f_equal.
    rewrite length_fmap, length_take. apply lookup_lt_Some in Hc. lia.
Qed.
